(** * generate_results.py: aggregation of benchmark predictions

    A shallow embedding of [run] from [generate_results.py] and of the
    library primitives it calls (pandas frames, torchmetrics binary
    metrics), followed by the properties of the pipeline.

    A number is a real, a metric value a real or the not-a-number value.
    The conversions to float32 that the script makes ([torch.FloatTensor],
    [tensor]) round to the nearest float32; arithmetic on Python floats and
    inside the metric library is exact. *)

From Stdlib Require Import List String Ascii ZArith Bool Arith Lia.
From Stdlib Require Import Permutation Sorting.Sorted.
From Stdlib Require Import Reals Lra.
Import ListNotations.

Set Implicit Arguments.

(* ================================================================== *)
(** ** Data model *)

(** A metric scalar: what [.item()] returns, a float that may be NaN. *)
Inductive num : Type :=
| NaN : num
| Fin : R -> num.

(** One row of the loaded table, columns named as in the pickled frames. *)
Record PredictionRecord : Type := mkRecord {
  seed : Z;
  user : string;
  model : string;
  strategy : string;
  reading_task : string;
  predictions : R;
  targets : Z
}.

Definition DataFrame := list PredictionRecord.

(** The five grouping columns
    [['seed', 'user', 'model', 'strategy', 'reading_task']]. *)
Record GroupKey : Type := mkKey {
  g_seed : Z;
  g_user : string;
  g_model : string;
  g_strategy : string;
  g_reading_task : string
}.

Definition key_of (r : PredictionRecord) : GroupKey :=
  mkKey (seed r) (user r) (model r) (strategy r) (reading_task r).

(** A row of the merged table: key columns, then the metric columns in the
    order the merges add them (mcc, precision, kappa, recall, auc). *)
Record MetricRow : Type := mkMetricRow {
  m_key : GroupKey;
  mcc : num;
  precision : num;
  kappa : num;
  recall : num;
  auc : num
}.

(* ================================================================== *)
(** ** Order on group keys *)

(** Lexicographic chaining of two comparison results. *)
Definition lex (c : comparison) (d : comparison) : comparison :=
  match c with
  | Eq => d
  | Lt => Lt
  | Gt => Gt
  end.

(** Tuples of key columns compare column by column, left to right. *)
Definition key_compare (a b : GroupKey) : comparison :=
  lex (Z.compare (g_seed a) (g_seed b))
 (lex (String.compare (g_user a) (g_user b))
 (lex (String.compare (g_model a) (g_model b))
 (lex (String.compare (g_strategy a) (g_strategy b))
      (String.compare (g_reading_task a) (g_reading_task b))))).

Definition key_leb (a b : GroupKey) : bool :=
  match key_compare a b with
  | Gt => false
  | _ => true
  end.

Definition key_eqb (a b : GroupKey) : bool :=
  match key_compare a b with
  | Eq => true
  | _ => false
  end.


(* ================================================================== *)
(** ** pandas primitives used by [run] *)

(** [pd.concat(frames)]: the rows of the frames one after the other.
    An empty list of frames is an error ([ValueError]). *)
Definition concat (frames : list DataFrame) : option DataFrame :=
  match frames with
  | [] => None
  | _ => Some (List.concat frames)
  end.

(** [col.isin(values)]: the boolean mask of a column. *)
Definition isin (values : list string) (col : list string) : list bool :=
  map (fun v => existsb (String.eqb v) values) col.

(** [df.loc[mask]]: the rows at which the mask holds, in order. *)
Fixpoint loc (mask : list bool) (df : DataFrame) : DataFrame :=
  match mask, df with
  | true :: mask', r :: df' => r :: loc mask' df'
  | false :: mask', _ :: df' => loc mask' df'
  | _, _ => []
  end.

Definition set_predictions (v : R) (r : PredictionRecord) : PredictionRecord :=
  mkRecord (seed r) (user r) (model r) (strategy r) (reading_task r)
           v (targets r).

(** [df.loc[mask, 'predictions'] = values], where [values] carries the
    index of [df.loc[mask]]: the masked rows take the values one by one,
    all other cells stay as they are. *)
Fixpoint loc_set_predictions (mask : list bool) (values : list R)
    (df : DataFrame) : DataFrame :=
  match mask, df with
  | true :: mask', r :: df' =>
      match values with
      | v :: values' =>
          set_predictions v r :: loc_set_predictions mask' values' df'
      | [] => df
      end
  | false :: mask', r :: df' => r :: loc_set_predictions mask' values df'
  | _, _ => df
  end.

(** [Series.unique()]: the distinct values in order of first appearance. *)
Fixpoint unique (A : Type) (eqb : A -> A -> bool) (l : list A) : list A :=
  match l with
  | [] => []
  | x :: t => x :: filter (fun y => negb (eqb x y)) (unique eqb t)
  end.

(** Position of the first occurrence of a value in a column. *)
Fixpoint first_index (A : Type) (eqb : A -> A -> bool) (x : A)
    (l : list A) : option nat :=
  match l with
  | [] => None
  | y :: t => if eqb x y then Some O
              else option_map S (first_index eqb x t)
  end.

(** Sorting of the group keys ([groupby] has [sort=True]). *)
Fixpoint insert_key (k : GroupKey) (l : list GroupKey) : list GroupKey :=
  match l with
  | [] => [k]
  | h :: t => if key_leb k h then k :: l else h :: insert_key k t
  end.

Definition sort_keys (l : list GroupKey) : list GroupKey :=
  fold_right insert_key [] l.

(** [df.groupby(keys)]: the observed keys, sorted, and for each key the
    rows that carry it, in table order. *)
Definition group_keys (df : DataFrame) : list GroupKey :=
  sort_keys (unique key_eqb (map key_of df)).

Definition get_group (k : GroupKey) (df : DataFrame) : DataFrame :=
  filter (fun r => key_eqb k (key_of r)) df.

(** [groups.apply(f, include_groups=False).reset_index()]: one row per
    group, the key columns followed by the value of [f] on the group. *)
Definition groupby_apply (A : Type) (f : DataFrame -> A) (df : DataFrame)
  : list (GroupKey * A) :=
  map (fun k => (k, f (get_group k df))) (group_keys df).

(** [left.merge(right, on=keys)]: inner join, in the order of the left
    rows; a left row without partner is dropped, one with several partners
    is repeated. *)
Definition merge (A B : Type) (left : list (GroupKey * A))
    (right : list (GroupKey * B)) : list (GroupKey * (A * B)) :=
  flat_map
    (fun a =>
       map (fun b => (fst a, (snd a, snd b)))
           (filter (fun b => key_eqb (fst a) (fst b)) right))
    left.

Open Scope R_scope.

Definition Rsum (l : list R) : R := fold_right Rplus 0 l.

(** The values of a column that are not NaN ([skipna=True]). *)
Fixpoint dropna (l : list num) : list R :=
  match l with
  | [] => []
  | NaN :: t => dropna t
  | Fin x :: t => x :: dropna t
  end.

Definition Rmean (v : list R) : R := Rsum v / INR (List.length v).

(** [Series.mean()]: NaN on a column without values. *)
Definition mean (col : list num) : num :=
  match dropna col with
  | [] => NaN
  | v => Fin (Rmean v)
  end.

(** [Series.std()]: sample standard deviation ([ddof=1]), NaN on a column
    with fewer than two values. *)
Definition std (col : list num) : num :=
  match dropna col with
  | [] => NaN
  | [_] => NaN
  | v =>
      Fin (sqrt (Rsum (map (fun x => (x - Rmean v) * (x - Rmean v)) v)
                 / INR (List.length v - 1)))
  end.

(* ================================================================== *)
(** ** torch and torchmetrics primitives *)

(** Binary exponent of the float32 binade of a number: the floor of its
    base 2 logarithm, not below -126 where the subnormal numbers start. *)
Definition exponent (x : R) : Z :=
  Z.max (-126) (Int_part (ln (Rabs x) / ln 2)).

(** Spacing of the float32 numbers around a number (24 significant bits). *)
Definition ulp (x : R) : R := powerRZ 2 (exponent x - 23).

(** Nearest integer, a tie going to the even one. *)
Definition nearest_even (y : R) : Z :=
  let f := Int_part y in
  if Rlt_dec (y - IZR f) (1 / 2) then f
  else if Rlt_dec (1 / 2) (y - IZR f) then (f + 1)%Z
  else if Z.even f then f else (f + 1)%Z.

(** Conversion of a Python float to float32: the nearest float32, ties to
    even. The overflow to infinity of a number beyond the largest float32
    is not represented. *)
Definition float32 (x : R) : R :=
  if Req_dec_T x 0 then 0 else IZR (nearest_even (x / ulp x)) * ulp x.

(** [torch.FloatTensor([x])], a tensor of one float32. *)
Definition FloatTensor (x : R) : R := float32 x.

(** [tensor(column.tolist())] on a column of Python floats: a float32
    tensor. *)
Definition tensor (l : list R) : list R := map float32 l.

(** Modelled from the spec: [torch.nn.Sigmoid] is library code outside the
    repository; section 4.2 gives sigmoid(x) = 1/(1+e^-x). *)
Definition Sigmoid (x : R) : R := 1 / (1 + exp (- x)).

(** The module [torch.nn.Sigmoid()] applied to a float32 tensor: the
    result is a float32, taken as the one nearest to the sigmoid of the
    element. *)
Definition nn_Sigmoid (y : R) : R := float32 (Sigmoid y).

(** Modelled from the spec: the decision threshold 0.5 of section 4.3; a
    score counts as a positive prediction when it exceeds the threshold. *)
Definition above_threshold (p : R) : bool :=
  if Rlt_dec (1 / 2) p then true else false.

Definition count (A : Type) (f : A -> bool) (l : list A) : nat :=
  List.length (filter f l).

(** Cells of the confusion matrix of a group, from the prediction and
    target columns paired row by row. *)
Definition tp (preds : list R) (target : list Z) : nat :=
  count (fun pt => above_threshold (fst pt) && (snd pt =? 1)%Z)
        (combine preds target).
Definition fp (preds : list R) (target : list Z) : nat :=
  count (fun pt => above_threshold (fst pt) && (snd pt =? 0)%Z)
        (combine preds target).
Definition fn (preds : list R) (target : list Z) : nat :=
  count (fun pt => negb (above_threshold (fst pt)) && (snd pt =? 1)%Z)
        (combine preds target).
Definition tn (preds : list R) (target : list Z) : nat :=
  count (fun pt => negb (above_threshold (fst pt)) && (snd pt =? 0)%Z)
        (combine preds target).

(** A quotient of counts, undefined (NaN) at a zero denominator. *)
Definition ratio (a : R) (d : nat) : num :=
  match d with
  | O => NaN
  | _ => Fin (a / INR d)
  end.

(** Modelled from the spec: the binary metrics of torchmetrics are library
    code outside the repository; section 4.3 and the glossary name the
    standard definitions, undefined (NaN) in the degenerate case. *)
Definition BinaryPrecision (preds : list R) (target : list Z) : num :=
  ratio (INR (tp preds target)) (tp preds target + fp preds target).

Definition BinaryRecall (preds : list R) (target : list Z) : num :=
  ratio (INR (tp preds target)) (tp preds target + fn preds target).

(** Matthews correlation coefficient over the four cells. *)
Definition BinaryMatthewsCorrCoef (preds : list R) (target : list Z) : num :=
  let a := tp preds target in
  let b := fp preds target in
  let c := fn preds target in
  let d := tn preds target in
  match ((a + b) * (a + c) * (d + b) * (d + c))%nat with
  | O => NaN
  | den => Fin ((INR a * INR d - INR b * INR c) / sqrt (INR den))
  end.

(** Cohen's kappa: observed agreement corrected for chance agreement,
    (po - pe) / (1 - pe), with both numerator and denominator scaled by
    the square of the group size. *)
Definition BinaryCohenKappa (preds : list R) (target : list Z) : num :=
  let a := tp preds target in
  let b := fp preds target in
  let c := fn preds target in
  let d := tn preds target in
  let n := (a + b + c + d)%nat in
  let chance := ((a + b) * (a + c) + (d + c) * (d + b))%nat in
  ratio (INR n * INR (a + d) - INR chance) (n * n - chance).

(** Score of one (positive, negative) pair in the rank statistic. *)
Definition pair_score (p n : R) : R :=
  if Rlt_dec n p then 1 else if Rlt_dec p n then 0 else 1 / 2.

Definition scores_where (c : Z) (preds : list R) (target : list Z) : list R :=
  map fst (filter (fun pt => (snd pt =? c)%Z) (combine preds target)).

(** Area under the ROC curve by its rank-based definition: the share of
    (positive, negative) pairs ranked correctly, ties counting one half;
    undefined when one of the classes is absent. *)
Definition BinaryAUROC (preds : list R) (target : list Z) : num :=
  let pos := scores_where 1 preds target in
  let neg := scores_where 0 preds target in
  ratio (Rsum (map (fun p => Rsum (map (pair_score p) neg)) pos))
        (List.length pos * List.length neg).

Close Scope R_scope.

(* ================================================================== *)
(** ** Logging *)

Inductive Level : Type := WARNING | INFO.

(** An argument of a logging call. *)
Inductive LogArg : Type :=
| AStr : string -> LogArg
| ANum : num -> LogArg.

(** A logging call: level, format string and arguments. *)
Record LogRecord : Type := mkLog {
  levelname : Level;
  msg : string;
  args : list LogArg
}.

Definition newline : string := String (ascii_of_nat 10) EmptyString.

(* ================================================================== *)
(** ** The pipeline *)

(** The local variables of [run] that outlive a step, and the log sink. *)
Record State : Type := mkState {
  results : DataFrame;
  metrics : list MetricRow;
  log : list LogRecord
}.

Definition logging (rec : LogRecord) (st : State) : State :=
  mkState (results st) (metrics st) (log st ++ [rec]).

Definition set_results (df : DataFrame) (st : State) : State :=
  mkState df (metrics st) (log st).

Definition set_metrics (m : list MetricRow) (st : State) : State :=
  mkState (results st) m (log st).

(** How a call of [run] ends. *)
Inductive Outcome : Type :=
| Returned : State -> Outcome
| Raised : string -> State -> Outcome.

(** The models whose predictions are raw logits. *)
Definition logit_models : list string :=
  ["eegnet"; "lstm"; "uercm"]%string.

(** Lines 50-53: sigmoid on the predictions of the masked rows. *)
Definition normalize (df : DataFrame) : DataFrame :=
  let mask := isin logit_models (map model df) in
  let masked_results := loc mask df in
  loc_set_predictions mask
    (map (fun x => nn_Sigmoid (FloatTensor x))
         (map predictions masked_results)) df.

(** The lambda handed to [groups.apply]: a metric on the prediction and
    target columns of the group. *)
Definition on_group (metric : list R -> list Z -> num) (x : DataFrame) : num :=
  metric (tensor (map predictions x)) (map targets x).

Definition to_row
    (r : GroupKey * ((((num * num) * num) * num) * num)) : MetricRow :=
  match r with
  | (k, ((((vmcc, vprecision), vkappa), vrecall), vauc)) =>
      mkMetricRow k vmcc vprecision vkappa vrecall vauc
  end.

(** Lines 56-95: the five per-group tables and their merge. *)
Definition compute_metrics (df : DataFrame) : list MetricRow :=
  let t_mcc := groupby_apply (on_group BinaryMatthewsCorrCoef) df in
  let t_kappa := groupby_apply (on_group BinaryCohenKappa) df in
  let t_precision := groupby_apply (on_group BinaryPrecision) df in
  let t_recall := groupby_apply (on_group BinaryRecall) df in
  let t_auc := groupby_apply (on_group BinaryAUROC) df in
  map to_row
    (merge (merge (merge (merge t_mcc t_precision) t_kappa) t_recall) t_auc).

(** The columns the report loop names. *)
Inductive Column : Type := c_mcc | c_precision | c_kappa | c_recall | c_auc.

Definition column_name (c : Column) : string :=
  match c with
  | c_mcc => "mcc"
  | c_precision => "precision"
  | c_kappa => "kappa"
  | c_recall => "recall"
  | c_auc => "auc"
  end%string.

Definition column (c : Column) (r : MetricRow) : num :=
  match c with
  | c_mcc => mcc r
  | c_precision => precision r
  | c_kappa => kappa r
  | c_recall => recall r
  | c_auc => auc r
  end.

Definition report_columns : list Column := [c_auc; c_precision; c_recall].

(** [metrics[(metrics['model'] == model) & (metrics['strategy'] == strategy)]] *)
Definition select (m s : string) (t : list MetricRow) : list MetricRow :=
  filter (fun r => String.eqb (g_model (m_key r)) m
                   && String.eqb (g_strategy (m_key r)) s) t.

Definition models_of (t : list MetricRow) : list string :=
  unique String.eqb (map (fun r => g_model (m_key r)) t).

Definition strategies_of (t : list MetricRow) : list string :=
  unique String.eqb (map (fun r => g_strategy (m_key r)) t).

Section Report.

(** ['%.2f'] on a float that is not NaN: the decimal rendering is the
    interpreter's, taken as given. *)
Variable format_finite : R -> string.

Definition format_2f (x : num) : string :=
  match x with
  | NaN => "nan"%string
  | Fin r => format_finite r
  end.

(** The f-string of line 109. *)
Definition latex_fragment (vmean vstd : num) : string :=
  ("& " ++ format_2f vmean ++ " (" ++ format_2f vstd ++ ") ")%string.

(** Lines 101-109: one pass of the innermost loop. The loop state is the
    pipeline state and the string [latex_output]. *)
Definition report_metric (m s : string) (acc : State * string) (c : Column)
  : State * string :=
  let vmean := mean (map (column c) (select m s (metrics (fst acc)))) in
  let vstd := std (map (column c) (select m s (metrics (fst acc)))) in
  (logging (mkLog INFO "%s: %.2f +- %.2f"
                  [AStr (column_name c); ANum vmean; ANum vstd]) (fst acc),
   (snd acc ++ latex_fragment vmean vstd)%string).

(** Lines 99-109: one pass of the loop over the strategies. *)
Definition report_strategy (m : string) (acc : State * string) (s : string)
  : State * string :=
  fold_left (report_metric m s) report_columns
    (logging (mkLog INFO (newline ++ newline ++ "Model: %s, Strategy: %s")
                    [AStr m; AStr s]) (fst acc),
     snd acc).

(** Lines 97-111: one pass of the loop over the models. *)
Definition report_model (st : State) (m : string) : State :=
  let acc := fold_left (report_strategy m)
               (rev (strategies_of (metrics st))) (st, EmptyString) in
  logging (mkLog INFO (snd acc) []) (fst acc).

Definition report (st : State) : State :=
  fold_left report_model (models_of (metrics st)) st.

(** Lines 43-46: reading the files in the order [glob] lists them. *)
Definition read_file (read_pickle : string -> DataFrame)
    (acc : State * list DataFrame) (fp : string) : State * list DataFrame :=
  (logging (mkLog INFO "Reading %s" [AStr fp]) (fst acc),
   snd acc ++ [read_pickle fp]).

(** [run]: [filepaths] is what [glob.glob] returns for the pattern and
    [read_pickle] the content of the files; [st] holds the log so far.
    The files are taken to be readable frames with the seven columns and
    targets the metrics accept: what a library call does on other input is
    outside the model, which leaves [pd.concat] on no frame as the one
    error it knows. *)
Definition run (read_pickle : string -> DataFrame) (filepaths : list string)
    (st : State) : Outcome :=
  match filepaths with
  | [] => Returned (logging (mkLog WARNING "No files found. Quitting..." []) st)
  | _ =>
      let acc := fold_left (read_file read_pickle) filepaths (st, []) in
      match concat (snd acc) with
      | None => Raised "ValueError" (fst acc)
      | Some df =>
          let st1 := set_results (normalize df) (set_results df (fst acc)) in
          let st2 := set_metrics (compute_metrics (results st1)) st1 in
          Returned (report st2)
      end
  end.

End Report.

(** The state at the call of [run]: nothing loaded, nothing logged. *)
Definition initial : State := mkState [] [] [].

(** When a call of [run] ends its local variables are gone; what stays is
    the log. *)
Definition leave (o : Outcome) : Outcome :=
  match o with
  | Returned st => Returned (mkState [] [] (log st))
  | Raised e st => Raised e (mkState [] [] (log st))
  end.

Section Main.

Variable format_finite : R -> string.

(** Lines 120-126, the body of the script after the argument parser, the
    log file and the seed are set up: [args_repr] is the text of the parsed
    arguments, [listing] gives for a file pattern what [glob.glob] lists
    under the project path. An exception of the first call ends the
    script. *)
Definition main (args_repr : string) (listing : string -> list string)
    (read_pickle : string -> DataFrame) (st : State) : Outcome :=
  let st1 := logging (mkLog INFO "Args: %s" [AStr args_repr]) st in
  let st2 :=
    logging (mkLog INFO "Generating results for word relevance..." []) st1 in
  match leave (run format_finite read_pickle
                   (listing "w_relevance_seed*.pkl"%string) st2) with
  | Raised e st3 => Raised e st3
  | Returned st3 =>
      let st4 :=
        logging (mkLog INFO "Generating results for sentence relevance..." [])
                st3 in
      leave (run format_finite read_pickle
                 (listing "s_relevance_seed*.pkl"%string) st4)
  end.

End Main.

(* ================================================================== *)
(** ** Vocabulary of the properties *)

(** *** Orders *)

(** What a three-way comparison owes on a chain x, y, z: equal ends can
    be replaced, and the strict part is transitive. *)
Definition chain (c1 c2 c3 : comparison) : Prop :=
  (c1 = Eq -> c3 = c2) /\ (c2 = Eq -> c3 = c1) /\
  (c1 = Lt -> c2 = Lt -> c3 = Lt).

Definition key_le (a b : GroupKey) : Prop := key_leb a b = true.

(** First positions along a list of values. *)
Definition rising (A : Type) (eqb : A -> A -> bool) (l : list A)
    (u : list A) : Prop :=
  exists idx, map (fun x => first_index eqb x l) u = map Some idx
              /\ StronglySorted lt idx.

(** *** The pipeline, row by row and line by line *)

Definition is_logit_model (r : PredictionRecord) : bool :=
  existsb (String.eqb (model r)) logit_models.

(** What the normalizer does to one row. *)
Definition normalize_row (r : PredictionRecord) : PredictionRecord :=
  if is_logit_model r
  then set_predictions (nn_Sigmoid (FloatTensor (predictions r))) r
  else r.

(** The columns the normalizer never writes. *)
Definition same_other_columns (r r' : PredictionRecord) : Prop :=
  seed r' = seed r /\ user r' = user r /\ model r' = model r /\
  strategy r' = strategy r /\ reading_task r' = reading_task r /\
  targets r' = targets r.

(** The merged table, row by row: one row per group key, each metric
    evaluated on the rows of that group. *)
Definition metric_row (df : DataFrame) (k : GroupKey) : MetricRow :=
  let x := get_group k df in
  mkMetricRow k (on_group BinaryMatthewsCorrCoef x) (on_group BinaryPrecision x)
    (on_group BinaryCohenKappa x) (on_group BinaryRecall x)
    (on_group BinaryAUROC x).

(** The table [run] works on: the frames of the files, in [glob] order. *)
Definition loaded (read_pickle : string -> DataFrame) (fps : list string)
  : DataFrame :=
  List.concat (map read_pickle fps).

Definition join (l : list string) : string := fold_right append EmptyString l.

Definition header_line (m s : string) : LogRecord :=
  mkLog INFO (newline ++ newline ++ "Model: %s, Strategy: %s")
        [AStr m; AStr s].

Definition column_mean (t : list MetricRow) (m s : string) (c : Column) : num :=
  mean (map (column c) (select m s t)).

Definition column_std (t : list MetricRow) (m s : string) (c : Column) : num :=
  std (map (column c) (select m s t)).

Definition metric_line (t : list MetricRow) (m s : string) (c : Column)
  : LogRecord :=
  mkLog INFO "%s: %.2f +- %.2f"
        [AStr (column_name c); ANum (column_mean t m s c);
         ANum (column_std t m s c)].

Definition strategy_lines (t : list MetricRow) (m s : string)
  : list LogRecord :=
  header_line m s :: map (metric_line t m s) report_columns.

Definition reading_line (fp : string) : LogRecord :=
  mkLog INFO "Reading %s" [AStr fp].

(** The metric line of a column whose selection holds no value. *)
Definition nan_line (c : Column) : LogRecord :=
  mkLog INFO "%s: %.2f +- %.2f" [AStr (column_name c); ANum NaN; ANum NaN].

(** The metric line of a pair with one row. *)
Definition single_line (row : MetricRow) (c : Column) : LogRecord :=
  mkLog INFO "%s: %.2f +- %.2f"
        [AStr (column_name c); ANum (column c row); ANum NaN].

Section ReportText.

Variable format_finite : R -> string.

Definition strategy_latex (t : list MetricRow) (m s : string) : string :=
  join (map (fun c => latex_fragment format_finite (column_mean t m s c)
                                     (column_std t m s c))
            report_columns).

Definition model_latex (t : list MetricRow) (m : string) : string :=
  join (map (strategy_latex t m) (rev (strategies_of t))).

Definition model_lines (t : list MetricRow) (m : string) : list LogRecord :=
  flat_map (strategy_lines t m) (rev (strategies_of t))
  ++ [mkLog INFO (model_latex t m) []].

Definition report_lines (t : list MetricRow) : list LogRecord :=
  flat_map (model_lines t) (models_of t).

End ReportText.

(** The LaTeX fragment that goes with a logged metric line; other records
    have none. *)
Definition fragment_of (format_finite : R -> string) (rec : LogRecord)
  : string :=
  match args rec with
  | [AStr _; ANum vmean; ANum vstd] => latex_fragment format_finite vmean vstd
  | _ => EmptyString
  end.

(** The (model, strategy) pair a log record announces, if it is one of the
    heading records of line 100. *)
Definition header_of (rec : LogRecord) : option (string * string) :=
  match args rec with
  | [AStr m; AStr s] => Some (m, s)
  | _ => None
  end.

Fixpoint headers (l : list LogRecord) : list (string * string) :=
  match l with
  | [] => []
  | rec :: l' =>
      match header_of rec with
      | Some p => p :: headers l'
      | None => headers l'
      end
  end.

(** A merged row without its mcc and kappa values. *)
Definition forget_mcc_kappa (r : MetricRow) : MetricRow :=
  mkMetricRow (m_key r) NaN (precision r) NaN (recall r) (auc r).

(** The records one call of [run] adds to the log. *)
Definition run_log (format_finite : R -> string)
    (read_pickle : string -> DataFrame) (fps : list string) : list LogRecord :=
  match fps with
  | [] => [mkLog WARNING "No files found. Quitting..." []]
  | _ =>
      map reading_line fps
      ++ report_lines format_finite
           (compute_metrics (normalize (loaded read_pickle fps)))
  end.

(** The texts of the records logged without arguments: in a report, the
    LaTeX lines of line 111. *)
Definition bare_messages (l : list LogRecord) : list string :=
  map msg (filter (fun rec => match args rec with [] => true | _ => false end) l).

(** Strictly ascending keys. *)
Definition key_lt (a b : GroupKey) : Prop := key_compare a b = Lt.

(** *** Ranges and degenerate groups *)

Open Scope R_scope.

(** A metric value inside the interval, or NaN. *)
Definition in_range (lo hi : R) (v : num) : Prop :=
  match v with
  | NaN => True
  | Fin x => lo <= x <= hi
  end.

Close Scope R_scope.

(** Only one class among the targets of a group. *)
Definition single_target_class (x : DataFrame) : Prop :=
  (forall r, In r x -> targets r = 0%Z) \/ (forall r, In r x -> targets r = 1%Z).

(** Only one class among the thresholded predictions of a group, as the
    metrics see them. *)
Definition single_predicted_class (x : DataFrame) : Prop :=
  (forall r, In r x -> above_threshold (float32 (predictions r)) = false)
  \/ (forall r, In r x -> above_threshold (float32 (predictions r)) = true).

Definition binary_targets (df : DataFrame) : Prop :=
  Forall (fun r => targets r = 0%Z \/ targets r = 1%Z) df.

(** *** Tables and groups of the examples *)

(** Merged rows of two models and two strategies; the pair of model
    eegnet and strategy A has three seeds. *)
Definition mixed_seeds : list MetricRow :=
  [mkMetricRow (mkKey 1 "u1" "eegnet" "A" "t") NaN NaN NaN NaN (Fin 0.8);
   mkMetricRow (mkKey 1 "u1" "eegnet" "B" "t") NaN NaN NaN NaN (Fin 0.1);
   mkMetricRow (mkKey 2 "u1" "eegnet" "A" "t") NaN NaN NaN NaN (Fin 0.9);
   mkMetricRow (mkKey 2 "u1" "svm" "A" "t") NaN NaN NaN NaN (Fin 0.2);
   mkMetricRow (mkKey 3 "u1" "eegnet" "A" "t") NaN NaN NaN NaN (Fin 1)].

Definition example_predictions : list R := [0.9; 0.2; 0.8; 0.1]%R.

Definition example_targets : list Z := [1; 0; 1; 0]%Z.

(** A group with both classes in which no score exceeds the threshold. *)
Definition unpredicted : DataFrame :=
  [mkRecord 1 "u1" "svm" "A" "t" 0 1;
   mkRecord 1 "u1" "svm" "A" "t" 0 0].

(** Two result files, one frame each. *)
Definition two_files (fp : string) : DataFrame :=
  if String.eqb fp "w_relevance_seed1.pkl"
  then [mkRecord 1 "u1" "eegnet" "A" "t" 0.9 1;
        mkRecord 1 "u1" "eegnet" "A" "t" 0.2 0]
  else [mkRecord 2 "u1" "svm" "B" "t" 0.9 1;
        mkRecord 2 "u1" "svm" "B" "t" 0.2 0].

(** A project directory with one sentence file and no word file. *)
Definition sentence_only (pattern : string) : list string :=
  if String.eqb pattern "s_relevance_seed*.pkl"
  then ["s_relevance_seed1.pkl"%string]
  else [].

(** A row of a logit model with the logit 20. *)
Definition logit_20 : PredictionRecord :=
  mkRecord 1 "u1" "lstm" "A" "t" 20 1.

(** A group of two rows, one of each class. *)
Definition two_rows : DataFrame :=
  [mkRecord 1 "u1" "eegnet" "A" "t" 0.9 1;
   mkRecord 1 "u1" "eegnet" "A" "t" 0.2 0].

(** Two models with one strategy each: each model lacks the strategy of
    the other. *)
Definition two_models : list MetricRow :=
  [mkMetricRow (mkKey 1 "u1" "eegnet" "A" "t") NaN NaN NaN NaN NaN;
   mkMetricRow (mkKey 1 "u1" "svm" "B" "t") NaN NaN NaN NaN NaN].

(** One seed of one model under one strategy. *)
Definition one_seed : list MetricRow :=
  [mkMetricRow (mkKey 1 "u1" "eegnet" "A" "t") NaN (Fin 1) NaN NaN NaN].

(** Two rows of a model outside the logit models. *)
Definition svm_rows : DataFrame :=
  [mkRecord 1 "u1" "svm" "A" "t" 0.9 1;
   mkRecord 1 "u1" "svm" "A" "t" 0.2 0].

(* ================================================================== *)
(** * Properties *)

(** ** The order on group keys is a total order *)

Section KeyOrder.

Lemma lex_chain c1 c2 c3 d1 d2 d3 :
  chain c1 c2 c3 -> chain d1 d2 d3 ->
  chain (lex c1 d1) (lex c2 d2) (lex c3 d3).
Proof.
  unfold chain. intros (A1 & A2 & A3) (B1 & B2 & B3).
  destruct c1, c2; simpl;
    try (rewrite (A1 eq_refl)); try (rewrite (A2 eq_refl));
    try (rewrite (A3 eq_refl eq_refl)); simpl;
    repeat split; intros; try congruence; auto.
Qed.

Lemma lex_opp c d : CompOpp (lex c d) = lex (CompOpp c) (CompOpp d).
Proof. now destruct c. Qed.

Lemma lex_eq c d : lex c d = Eq <-> c = Eq /\ d = Eq.
Proof. destruct c; simpl; intuition congruence. Qed.

Lemma Z_chain (x y z : Z) : chain (x ?= y)%Z (y ?= z)%Z (x ?= z)%Z.
Proof.
  unfold chain. repeat split.
  - intros H%Z.compare_eq_iff. now subst.
  - intros H%Z.compare_eq_iff. now subst.
  - rewrite !Z.compare_lt_iff. lia.
Qed.

Lemma ascii_compare_refl (a : ascii) : Ascii.compare a a = Eq.
Proof. unfold Ascii.compare. apply N.compare_refl. Qed.

Lemma string_compare_refl (s : string) : String.compare s s = Eq.
Proof.
  induction s as [|a s IH]; simpl; [reflexivity|].
  now rewrite ascii_compare_refl.
Qed.

Lemma string_compare_eq (a b : string) : String.compare a b = Eq <-> a = b.
Proof.
  split.
  - apply String.compare_eq_iff.
  - intros ->. apply string_compare_refl.
Qed.

Lemma string_compare_trans (a : string) :
  forall b c, String.compare a b = Lt -> String.compare b c = Lt ->
              String.compare a c = Lt.
Proof.
  induction a as [|x a IH]; intros [|y b] [|z c]; simpl; try congruence.
  unfold Ascii.compare.
  destruct (N.compare_spec (N_of_ascii x) (N_of_ascii y)) as [E1|L1|G1];
    try discriminate;
    destruct (N.compare_spec (N_of_ascii y) (N_of_ascii z)) as [E2|L2|G2];
    try discriminate; intros H1 H2.
  - rewrite E1, E2, N.compare_refl. eauto.
  - assert (L : (N_of_ascii x < N_of_ascii z)%N) by lia.
    apply N.compare_lt_iff in L. now rewrite L.
  - assert (L : (N_of_ascii x < N_of_ascii z)%N) by lia.
    apply N.compare_lt_iff in L. now rewrite L.
  - assert (L : (N_of_ascii x < N_of_ascii z)%N) by lia.
    apply N.compare_lt_iff in L. now rewrite L.
Qed.

Lemma string_chain (x y z : string) :
  chain (String.compare x y) (String.compare y z) (String.compare x z).
Proof.
  unfold chain. repeat split.
  - intros H%string_compare_eq. now subst.
  - intros H%string_compare_eq. now subst.
  - apply string_compare_trans.
Qed.

Lemma key_chain (a b c : GroupKey) :
  chain (key_compare a b) (key_compare b c) (key_compare a c).
Proof.
  unfold key_compare.
  repeat apply lex_chain; auto using Z_chain, string_chain.
Qed.

Lemma key_compare_eq (a b : GroupKey) : key_compare a b = Eq <-> a = b.
Proof.
  unfold key_compare. rewrite !lex_eq, Z.compare_eq_iff, !string_compare_eq.
  destruct a, b; simpl. split.
  - intros (-> & -> & -> & -> & ->). reflexivity.
  - intros [= -> -> -> -> ->]. auto.
Qed.

Lemma key_compare_opp (a b : GroupKey) :
  key_compare b a = CompOpp (key_compare a b).
Proof.
  unfold key_compare.
  now rewrite !lex_opp, <- Z.compare_antisym, <- !String.compare_antisym.
Qed.

Lemma key_eqb_eq (a b : GroupKey) : key_eqb a b = true <-> a = b.
Proof.
  unfold key_eqb. rewrite <- key_compare_eq.
  destruct (key_compare a b); intuition congruence.
Qed.

Lemma key_eqb_refl (a : GroupKey) : key_eqb a a = true.
Proof. now apply key_eqb_eq. Qed.

Lemma key_eqb_neq (a b : GroupKey) : key_eqb a b = false <-> a <> b.
Proof.
  rewrite <- key_eqb_eq. destruct (key_eqb a b); intuition congruence.
Qed.

Lemma key_leb_total (a b : GroupKey) : key_leb a b = true \/ key_leb b a = true.
Proof.
  unfold key_leb. rewrite (key_compare_opp a b).
  destruct (key_compare a b); simpl; auto.
Qed.

Lemma key_leb_antisym (a b : GroupKey) :
  key_leb a b = true -> key_leb b a = true -> a = b.
Proof.
  unfold key_leb. rewrite (key_compare_opp a b), <- key_compare_eq.
  destruct (key_compare a b); simpl; congruence.
Qed.

Lemma key_leb_trans (a b c : GroupKey) :
  key_leb a b = true -> key_leb b c = true -> key_leb a c = true.
Proof.
  unfold key_leb. destruct (key_chain a b c) as (H1 & H2 & H3).
  destruct (key_compare a b) eqn:E1; try discriminate;
    destruct (key_compare b c) eqn:E2; try discriminate; intros _ _.
  - now rewrite (H1 eq_refl).
  - now rewrite (H1 eq_refl).
  - now rewrite (H2 eq_refl).
  - now rewrite (H3 eq_refl eq_refl).
Qed.

End KeyOrder.

(* ================================================================== *)
(** ** Frames: unique values, sorted keys, groups and joins *)

Section Unique.

Variable A : Type.
Variable eqb : A -> A -> bool.
Hypothesis eqb_ok : forall x y, eqb x y = true <-> x = y.

Lemma eqb_same x : eqb x x = true.
Proof. now apply eqb_ok. Qed.

Lemma eqb_false x y : eqb x y = false <-> x <> y.
Proof. rewrite <- eqb_ok. destruct (eqb x y); intuition congruence. Qed.

Lemma unique_In (l : list A) (x : A) : In x (unique eqb l) <-> In x l.
Proof.
  induction l as [|y l IH]; simpl; [tauto|].
  rewrite filter_In, IH, negb_true_iff, eqb_false.
  destruct (eqb y x) eqn:E.
  - apply eqb_ok in E. subst. tauto.
  - apply eqb_false in E. tauto.
Qed.

Lemma unique_NoDup (l : list A) : NoDup (unique eqb l).
Proof.
  induction l as [|y l IH]; simpl; constructor.
  - rewrite filter_In, eqb_same. simpl. intros [_ H]. discriminate.
  - now apply NoDup_filter.
Qed.

(** A value that is already distinct from the head keeps its first
    position, shifted by one. *)
Lemma first_index_In (l : list A) (x : A) :
  In x l -> exists i, first_index eqb x l = Some i.
Proof.
  induction l as [|y l IH]; simpl; [tauto|]. intros H.
  destruct (eqb x y) eqn:E; [eauto|].
  destruct H as [->|H]; [now rewrite eqb_same in E|].
  destruct (IH H) as [i ->]. simpl. eauto.
Qed.

Lemma rising_filter (l u : list A) (f : A -> bool) :
  rising eqb l u -> rising eqb l (filter f u).
Proof.
  intros (idx & Hm & Hs). revert idx Hm Hs.
  induction u as [|x u IH]; intros idx Hm Hs; simpl.
  - exists []. split; [reflexivity|constructor].
  - destruct idx as [|i idx]; [discriminate|]. simpl in Hm.
    injection Hm as Hi Hm. inversion Hs as [|? ? Hs' Hall]; subst.
    destruct (IH idx Hm Hs') as (idx' & Hm' & Hs'').
    destruct (f x).
    + assert (Hsub : forall j, In j idx' -> In j idx).
      { clear - Hm Hm' eqb_ok. intros j Hj.
        assert (H1 : In (Some j) (map Some idx')) by now apply in_map.
        rewrite <- Hm' in H1. apply in_map_iff in H1 as (y & Hy & Hin).
        apply filter_In in Hin as [Hin _].
        assert (H2 : In (Some j) (map (fun x => first_index eqb x l) u)).
        { rewrite <- Hy. apply (in_map (fun x => first_index eqb x l)), Hin. }
        rewrite Hm in H2. apply in_map_iff in H2 as (j' & [= ->] & ?).
        assumption. }
      exists (i :: idx'). split; [simpl; now rewrite Hi, Hm'|].
      constructor; [assumption|].
      rewrite Forall_forall in *. auto.
    + exists idx'. now split.
Qed.

Lemma unique_rising (l : list A) : rising eqb l (unique eqb l).
Proof.
  induction l as [|y l IH]; simpl.
  - exists []. split; [reflexivity|constructor].
  - assert (Hf := rising_filter (fun z => negb (eqb y z)) IH).
    destruct Hf as (idx & Hm & Hs).
    exists (O :: map S idx). split.
    + simpl. rewrite eqb_same. f_equal.
      rewrite map_map. rewrite <- (map_map Some (option_map S)) .
      rewrite <- Hm, map_map. apply map_ext_in.
      intros x Hx. apply filter_In in Hx as [_ Hx].
      apply negb_true_iff in Hx.
      assert (E : eqb x y = false).
      { apply eqb_false. apply eqb_false in Hx. congruence. }
      now rewrite E.
    + constructor.
      * clear - Hs. induction Hs as [|i idx Hs IHs Hall]; simpl;
          constructor; auto.
        rewrite Forall_forall in *. intros j Hj.
        apply in_map_iff in Hj as (j' & <- & Hj'). apply Hall in Hj'. lia.
      * apply Forall_forall. intros j Hj.
        apply in_map_iff in Hj as (j' & <- & _). lia.
Qed.

End Unique.

Section SortedKeys.

Lemma insert_key_perm (k : GroupKey) (l : list GroupKey) :
  Permutation (insert_key k l) (k :: l).
Proof.
  induction l as [|h t IH]; simpl; [reflexivity|].
  destruct (key_leb k h); [reflexivity|].
  rewrite IH. apply perm_swap.
Qed.

Lemma sort_keys_perm (l : list GroupKey) : Permutation (sort_keys l) l.
Proof.
  induction l as [|h t IH]; simpl; [reflexivity|].
  rewrite insert_key_perm. now constructor.
Qed.

Lemma insert_key_sorted (k : GroupKey) (l : list GroupKey) :
  StronglySorted key_le l -> StronglySorted key_le (insert_key k l).
Proof.
  induction 1 as [|h t Hs IH Hall]; simpl.
  - repeat constructor.
  - destruct (key_leb k h) eqn:E.
    + constructor; [now constructor|].
      constructor; [assumption|].
      rewrite Forall_forall in *. intros x Hx.
      apply key_leb_trans with h; auto. now apply Hall.
    + constructor; [assumption|].
      rewrite Forall_forall in *. intros x Hx.
      apply (Permutation_in _ (insert_key_perm k t)) in Hx.
      destruct Hx as [<-|Hx]; [|now apply Hall].
      destruct (key_leb_total k h) as [H|H]; [congruence|exact H].
Qed.

Lemma sort_keys_sorted (l : list GroupKey) : StronglySorted key_le (sort_keys l).
Proof.
  induction l as [|h t IH]; simpl; [constructor|].
  now apply insert_key_sorted.
Qed.

(** A duplicate-free key list has one sorted arrangement. *)
Lemma sorted_unique (l1 : list GroupKey) :
  forall l2, StronglySorted key_le l1 -> StronglySorted key_le l2 ->
             Permutation l1 l2 -> l1 = l2.
Proof.
  induction l1 as [|h1 t1 IH]; intros l2 S1 S2 P.
  - apply Permutation_nil in P. now subst.
  - destruct l2 as [|h2 t2].
    + apply Permutation_sym, Permutation_nil in P. discriminate.
    + inversion S1 as [|? ? S1' A1]; inversion S2 as [|? ? S2' A2]; subst.
      rewrite Forall_forall in A1, A2.
      assert (E : h1 = h2).
      { assert (I1 : In h1 (h2 :: t2))
          by (apply (Permutation_in _ P); now left).
        assert (I2 : In h2 (h1 :: t1))
          by (apply (Permutation_in _ (Permutation_sym P)); now left).
        destruct I1 as [I1|I1]; [congruence|].
        destruct I2 as [I2|I2]; [congruence|].
        apply key_leb_antisym; [now apply A1 | now apply A2]. }
      subst h2. f_equal. apply IH; auto.
      now apply Permutation_cons_inv in P.
Qed.

Lemma sort_keys_invariant (l1 l2 : list GroupKey) :
  Permutation l1 l2 -> sort_keys l1 = sort_keys l2.
Proof.
  intros P. apply sorted_unique; auto using sort_keys_sorted.
  now rewrite !sort_keys_perm.
Qed.

End SortedKeys.

Section Groups.

Lemma group_keys_In (df : DataFrame) (k : GroupKey) :
  In k (group_keys df) <-> exists r, In r df /\ key_of r = k.
Proof.
  unfold group_keys. split.
  - intros H. apply (Permutation_in _ (sort_keys_perm _)) in H.
    apply (proj1 (unique_In key_eqb key_eqb_eq _ _)) in H.
    apply in_map_iff in H as (r & Hr & Hin). eauto.
  - intros (r & Hin & Hr).
    apply (Permutation_in _ (Permutation_sym (sort_keys_perm _))).
    apply (proj2 (unique_In key_eqb key_eqb_eq _ _)). subst. now apply in_map.
Qed.

Lemma group_keys_NoDup (df : DataFrame) : NoDup (group_keys df).
Proof.
  unfold group_keys.
  apply (Permutation_NoDup (Permutation_sym (sort_keys_perm _))).
  apply unique_NoDup, key_eqb_eq.
Qed.

Lemma get_group_In (k : GroupKey) (df : DataFrame) (r : PredictionRecord) :
  In r (get_group k df) <-> In r df /\ key_of r = k.
Proof.
  unfold get_group. rewrite filter_In, key_eqb_eq. intuition congruence.
Qed.

(** Filtering by membership in a duplicate-free key list splits the frame
    into the groups of these keys. *)
Lemma groups_partition (ks : list GroupKey) (df : DataFrame) :
  NoDup ks ->
  Permutation (flat_map (fun k => get_group k df) ks)
              (filter (fun r => existsb (fun k => key_eqb k (key_of r)) ks) df).
Proof.
  induction 1 as [|k ks Hk Hnd IH]; simpl.
  - induction df as [|r df IHdf]; simpl; auto.
  - rewrite IH. clear IH. unfold get_group.
    induction df as [|r df IHdf]; simpl; [constructor|].
    destruct (key_eqb k (key_of r)) eqn:E; simpl.
    + apply key_eqb_eq in E.
      assert (N : existsb (fun k0 => key_eqb k0 (key_of r)) ks = false).
      { apply not_true_is_false. intros Hx.
        apply existsb_exists in Hx as (k' & Hin & Hk').
        apply key_eqb_eq in Hk'. congruence. }
      rewrite N. now constructor.
    + destruct (existsb (fun k0 => key_eqb k0 (key_of r)) ks); [|assumption].
      rewrite <- IHdf. apply Permutation_sym, Permutation_middle.
Qed.

Lemma group_keys_partition (df : DataFrame) :
  Permutation (flat_map (fun k => get_group k df) (group_keys df)) df.
Proof.
  rewrite (groups_partition df (group_keys_NoDup df)).
  assert (E : forall l, (forall r, In r l -> In r df) ->
     filter (fun r => existsb (fun k => key_eqb k (key_of r)) (group_keys df)) l
     = l).
  { induction l as [|r l IH]; intros Hl; simpl; [reflexivity|].
    assert (X : existsb (fun k => key_eqb k (key_of r)) (group_keys df) = true).
    { apply existsb_exists. exists (key_of r). split.
      - apply group_keys_In. exists r. split; [apply Hl; now left|reflexivity].
      - apply key_eqb_refl. }
    rewrite X. f_equal. apply IH. intros; apply Hl; now right. }
  rewrite E; auto.
Qed.

End Groups.

Section Merge.

Variables (A B : Type) (f : GroupKey -> A) (g : GroupKey -> B).

Lemma filter_key_absent (k : GroupKey) (ks : list GroupKey) :
  ~ In k ks ->
  filter (fun b : GroupKey * B => key_eqb k (fst b)) (map (fun x => (x, g x)) ks)
  = [].
Proof.
  induction ks as [|h t IH]; simpl; [reflexivity|]. intros H.
  assert (E : key_eqb k h = false) by (apply key_eqb_neq; intuition).
  rewrite E. apply IH. intuition.
Qed.

Lemma filter_key_present (k : GroupKey) (ks : list GroupKey) :
  NoDup ks -> In k ks ->
  filter (fun b : GroupKey * B => key_eqb k (fst b)) (map (fun x => (x, g x)) ks)
  = [(k, g k)].
Proof.
  induction 1 as [|h t Hh Hnd IH]; simpl; [tauto|]. intros [->|Hin].
  - rewrite key_eqb_refl, filter_key_absent; auto.
  - assert (E : key_eqb k h = false) by (apply key_eqb_neq; congruence).
    rewrite E. auto.
Qed.

(** Two per-group tables over the same duplicate-free keys join row by
    row. *)
Lemma merge_same_keys (ks : list GroupKey) :
  NoDup ks ->
  merge (map (fun k => (k, f k)) ks) (map (fun k => (k, g k)) ks)
  = map (fun k => (k, (f k, g k))) ks.
Proof.
  intros Hnd. unfold merge.
  assert (E : forall l, (forall k, In k l -> In k ks) ->
    flat_map
      (fun a : GroupKey * A =>
         map (fun b : GroupKey * B => (fst a, (snd a, snd b)))
           (filter (fun b => key_eqb (fst a) (fst b))
              (map (fun k => (k, g k)) ks)))
      (map (fun k => (k, f k)) l)
    = map (fun k => (k, (f k, g k))) l).
  { induction l as [|h t IH]; intros Hl; simpl; [reflexivity|].
    rewrite filter_key_present; auto; [|apply Hl; now left].
    simpl. f_equal. apply IH. intros; apply Hl; now right. }
  apply E. auto.
Qed.

End Merge.

Lemma compute_metrics_rows (df : DataFrame) :
  compute_metrics df = map (metric_row df) (group_keys df).
Proof.
  unfold compute_metrics, groupby_apply.
  pose proof (group_keys_NoDup df) as Hnd.
  rewrite (merge_same_keys _ _ Hnd).
  rewrite (merge_same_keys
             (fun k => (on_group BinaryMatthewsCorrCoef (get_group k df),
                        on_group BinaryPrecision (get_group k df))) _ Hnd).
  rewrite (merge_same_keys
             (fun k => (on_group BinaryMatthewsCorrCoef (get_group k df),
                        on_group BinaryPrecision (get_group k df),
                        on_group BinaryCohenKappa (get_group k df))) _ Hnd).
  rewrite (merge_same_keys
             (fun k => (on_group BinaryMatthewsCorrCoef (get_group k df),
                        on_group BinaryPrecision (get_group k df),
                        on_group BinaryCohenKappa (get_group k df),
                        on_group BinaryRecall (get_group k df))) _ Hnd).
  rewrite map_map. reflexivity.
Qed.

(* ================================================================== *)
(** ** Rounding to float32 *)

Section Float32.

Unset Implicit Arguments.
Open Scope R_scope.

Lemma Int_part_IZR (n : Z) : Int_part (IZR n) = n.
Proof. symmetry. apply Int_part_spec. lra. Qed.

Lemma Int_part_bounds (y : R) : IZR (Int_part y) <= y < IZR (Int_part y) + 1.
Proof. destruct (base_Int_part y). lra. Qed.

Lemma nearest_even_IZR (n : Z) : nearest_even (IZR n) = n.
Proof.
  unfold nearest_even. rewrite Int_part_IZR.
  destruct (Rlt_dec (IZR n - IZR n) (1 / 2)); [reflexivity|lra].
Qed.

Lemma nearest_even_between (y : R) :
  (Int_part y <= nearest_even y <= Int_part y + 1)%Z.
Proof.
  unfold nearest_even.
  destruct (Rlt_dec _ _); [lia|]. destruct (Rlt_dec _ _); [lia|].
  destruct (Z.even _); lia.
Qed.

Lemma nearest_even_le (y : R) (n : Z) : y <= IZR n -> (nearest_even y <= n)%Z.
Proof.
  intros [H|H].
  - pose proof (Int_part_bounds y) as B. pose proof (nearest_even_between y).
    assert (IZR (Int_part y) < IZR n) by lra.
    apply lt_IZR in H1. lia.
  - subst. rewrite nearest_even_IZR. lia.
Qed.

Lemma nearest_even_ge (y : R) (n : Z) : IZR n <= y -> (n <= nearest_even y)%Z.
Proof.
  intros H. pose proof (Int_part_bounds y) as B.
  pose proof (nearest_even_between y).
  assert (IZR n < IZR (Int_part y) + 1) by lra.
  rewrite <- plus_IZR in H1. apply lt_IZR in H1. lia.
Qed.

Lemma nearest_even_up (y : R) (n : Z) :
  IZR n - 1 / 2 < y < IZR n -> nearest_even y = n.
Proof.
  intros [H1 H2].
  assert (E : Int_part y = (n - 1)%Z).
  { symmetry. apply Int_part_spec. rewrite minus_IZR. lra. }
  unfold nearest_even. rewrite E, minus_IZR.
  destruct (Rlt_dec _ _); [lra|]. destruct (Rlt_dec _ _); [lia|lra].
Qed.

Lemma ln_2_pos : 0 < ln 2.
Proof. pose proof ln_lt_2. lra. Qed.

Lemma ln_powerRZ_2 (k : Z) : ln (powerRZ 2 k) = IZR k * ln 2.
Proof. rewrite powerRZ_Rpower by lra. apply ln_Rpower. Qed.

Lemma pow2_pos (k : Z) : 0 < powerRZ 2 k.
Proof. apply powerRZ_lt. lra. Qed.

Lemma ln_le (x y : R) : 0 < x -> x <= y -> ln x <= ln y.
Proof. intros Hx [H|H]; [left; now apply ln_increasing|subst; lra]. Qed.

(** The exponent of a positive number in a binade. *)
Lemma exponent_binade (x : R) (k : Z) :
  powerRZ 2 k <= x < powerRZ 2 (k + 1) -> exponent x = Z.max (-126) k.
Proof.
  intros [H1 H2]. pose proof (pow2_pos k) as P. pose proof ln_2_pos as L.
  unfold exponent. rewrite Rabs_pos_eq by lra. f_equal.
  symmetry. apply Int_part_spec.
  assert (A : IZR k * ln 2 <= ln x).
  { rewrite <- ln_powerRZ_2. apply ln_le; lra. }
  assert (B : ln x < IZR (k + 1) * ln 2).
  { rewrite <- ln_powerRZ_2. apply ln_increasing; lra. }
  rewrite plus_IZR in B.
  split.
  - apply Rmult_lt_reg_r with (ln 2); [assumption|].
    unfold Rdiv. rewrite Rmult_minus_distr_r, Rmult_assoc, Rinv_l; lra.
  - apply Rmult_le_reg_r with (ln 2); [assumption|].
    unfold Rdiv. rewrite Rmult_assoc, Rinv_l; lra.
Qed.

Lemma exponent_le (x : R) (k : Z) :
  0 < x <= powerRZ 2 k -> (exponent x <= Z.max (-126) k)%Z.
Proof.
  intros [H1 H2]. pose proof ln_2_pos as L.
  unfold exponent. rewrite Rabs_pos_eq by lra.
  apply Z.max_le_compat_l.
  pose proof (Int_part_bounds (ln x / ln 2)) as B.
  assert (A : ln x <= IZR k * ln 2).
  { rewrite <- ln_powerRZ_2. apply ln_le; lra. }
  assert (C : ln x / ln 2 <= IZR k).
  { apply Rmult_le_reg_r with (ln 2); [assumption|].
    unfold Rdiv. rewrite Rmult_assoc, Rinv_l; lra. }
  apply le_IZR. lra.
Qed.

Lemma powerRZ_nonneg_IZR (n : Z) : (0 <= n)%Z -> powerRZ 2 n = IZR (2 ^ n).
Proof.
  intros H. destruct n as [|p|p]; [reflexivity| |lia].
  cbn [powerRZ]. rewrite pow_IZR. f_equal. now rewrite positive_nat_Z.
Qed.

Lemma ulp_pos (x : R) : 0 < ulp x.
Proof. apply pow2_pos. Qed.

Lemma float32_0 : float32 0 = 0.
Proof. unfold float32. destruct (Req_dec_T 0 0); [reflexivity|contradiction]. Qed.

Lemma float32_nonneg (x : R) : 0 <= x -> 0 <= float32 x.
Proof.
  intros H. unfold float32. destruct (Req_dec_T x 0); [lra|].
  pose proof (ulp_pos x) as U.
  apply Rmult_le_pos; [|lra]. apply IZR_le, nearest_even_ge.
  apply Rmult_le_pos; [assumption|]. left. now apply Rinv_0_lt_compat.
Qed.

Lemma float32_nonpos (x : R) : x <= 0 -> float32 x <= 0.
Proof.
  intros H. unfold float32. destruct (Req_dec_T x 0); [lra|].
  pose proof (ulp_pos x) as U.
  assert (N : (nearest_even (x / ulp x) <= 0)%Z).
  { apply nearest_even_le. unfold Rdiv.
    pose proof (Rinv_0_lt_compat _ U). nra. }
  apply IZR_le in N. nra.
Qed.

(** Rounding does not cross a power of two from below. *)
Lemma float32_le_pow2 (x : R) (k : Z) :
  (-149 <= k)%Z -> x <= powerRZ 2 k -> float32 x <= powerRZ 2 k.
Proof.
  intros Hk Hx. pose proof (pow2_pos k) as P.
  destruct (Rle_dec x 0) as [N|N].
  { pose proof (float32_nonpos x N). lra. }
  apply Rnot_le_lt in N.
  unfold float32. destruct (Req_dec_T x 0); [lra|].
  pose proof (exponent_le x k (conj N Hx)) as E.
  unfold ulp. set (e := exponent x) in *.
  assert (D : (0 <= k - (e - 23))%Z) by lia.
  assert (S : powerRZ 2 k = IZR (2 ^ (k - (e - 23))) * powerRZ 2 (e - 23)).
  { rewrite <- powerRZ_nonneg_IZR by assumption.
    rewrite <- powerRZ_add by lra. f_equal. lia. }
  rewrite S. apply Rmult_le_compat_r; [left; apply pow2_pos|].
  apply IZR_le, nearest_even_le.
  apply Rmult_le_reg_r with (powerRZ 2 (e - 23)); [apply pow2_pos|].
  unfold Rdiv. rewrite Rmult_assoc, Rinv_l, Rmult_1_r, <- S; [assumption|].
  pose proof (pow2_pos (e - 23)). lra.
Qed.

(** Rounding inside a binade. *)
Lemma float32_binade (x : R) (k : Z) :
  (-126 <= k)%Z -> powerRZ 2 k <= x < powerRZ 2 (k + 1) ->
  float32 x = IZR (nearest_even (x * powerRZ 2 (23 - k))) * powerRZ 2 (k - 23).
Proof.
  intros Hk H. pose proof (pow2_pos k) as P.
  unfold float32. destruct (Req_dec_T x 0); [lra|].
  unfold ulp. rewrite (exponent_binade x k H), Z.max_r by lia.
  do 3 f_equal. unfold Rdiv. f_equal.
  rewrite <- powerRZ_neg' . f_equal. lia.
Qed.

Lemma powerRZ_pos_eval (p : positive) :
  powerRZ 2 (Zpos p) = IZR (2 ^ Zpos p).
Proof. apply powerRZ_nonneg_IZR. lia. Qed.

Lemma powerRZ_neg_eval (p : positive) :
  powerRZ 2 (Zneg p) = / IZR (2 ^ Zpos p).
Proof.
  change (Zneg p) with (- Zpos p)%Z.
  now rewrite powerRZ_neg', powerRZ_pos_eval.
Qed.

(** Evaluation of the powers of two with closed exponents. *)
Ltac pow2 :=
  repeat match goal with
  | |- context [powerRZ 2 ?k] =>
      let k' := eval vm_compute in k in
      lazymatch k' with
      | Z0 => change (powerRZ 2 k) with 1
      | Zpos ?p =>
          let v := eval vm_compute in (2 ^ Zpos p)%Z in
          change (powerRZ 2 k) with (powerRZ 2 (Zpos p));
          rewrite (powerRZ_pos_eval p); change (2 ^ Zpos p)%Z with v
      | Zneg ?p =>
          let v := eval vm_compute in (2 ^ Zpos p)%Z in
          change (powerRZ 2 k) with (powerRZ 2 (Zneg p));
          rewrite (powerRZ_neg_eval p); change (2 ^ Zpos p)%Z with v
      end
  end.

Lemma float32_half : float32 (1 / 2) = 1 / 2.
Proof.
  rewrite (float32_binade (1 / 2) (-1)); [|lia|pow2; lra].
  replace (1 / 2 * powerRZ 2 (23 - -1)) with (IZR (2 ^ 23)).
  - rewrite nearest_even_IZR. pow2. change (2 ^ 23)%Z with 8388608%Z. lra.
  - pow2. change (2 ^ 23)%Z with 8388608%Z. lra.
Qed.

Lemma float32_20 : float32 20 = 20.
Proof.
  rewrite (float32_binade 20 4); [|lia|pow2; lra].
  replace (20 * powerRZ 2 (23 - 4)) with (IZR 10485760).
  - rewrite nearest_even_IZR. pow2. lra.
  - pow2. lra.
Qed.

(** Just below 1 the nearest float32 is 1. *)
Lemma float32_saturates (x : R) :
  1 - powerRZ 2 (-25) < x < 1 -> float32 x = 1.
Proof.
  intros H. assert (H' : 1 - / 33554432 < x < 1).
  { revert H. pow2. tauto. }
  clear H.
  rewrite (float32_binade x (-1)); [|lia|pow2; lra].
  rewrite (nearest_even_up _ 16777216).
  - pow2. lra.
  - pow2. lra.
Qed.

Lemma exp_nat_mult (n : nat) (x : R) : exp (INR n * x) = exp x ^ n.
Proof.
  induction n as [|n IH].
  - cbn. rewrite Rmult_0_l. apply exp_0.
  - rewrite S_INR, Rmult_plus_distr_r, Rmult_1_l, exp_plus, IH. cbn. ring.
Qed.

Lemma exp_20_large : 33554432 < exp 20.
Proof.
  replace 20 with (INR 160 * (1 / 8)) by (cbn; lra).
  rewrite exp_nat_mult.
  assert (H : 9 / 8 < exp (1 / 8)).
  { pose proof (exp_ineq1 (1 / 8)). lra. }
  apply Rlt_le_trans with ((9 / 8) ^ 160).
  - replace (9 / 8) with (IZR 9 * / IZR 8) by lra.
    rewrite Rpow_mult_distr, pow_inv, !pow_IZR.
    apply Rmult_lt_reg_r with (IZR (8 ^ Z.of_nat 160)).
    + apply IZR_lt. reflexivity.
    + rewrite Rmult_assoc, Rinv_l, Rmult_1_r.
      * rewrite <- mult_IZR. apply IZR_lt. reflexivity.
      * apply not_0_IZR. discriminate.
  - apply pow_incr. lra.
Qed.

Lemma Sigmoid_20_near_one : 1 - powerRZ 2 (-25) < Sigmoid 20 < 1.
Proof.
  pose proof exp_20_large as E. pow2.
  unfold Sigmoid. rewrite exp_Ropp.
  pose proof (exp_pos 20) as P.
  assert (I : 0 < / exp 20 < / 33554432).
  { split; [now apply Rinv_0_lt_compat|].
    apply Rinv_lt_contravar; lra. }
  set (t := / exp 20) in *. clearbody t.
  split.
  - apply Rmult_lt_reg_r with (1 + t); [lra|].
    unfold Rdiv. rewrite Rmult_1_l, Rinv_l by lra. nra.
  - apply Rmult_lt_reg_r with (1 + t); [lra|].
    unfold Rdiv. rewrite Rmult_1_l, Rinv_l by lra. lra.
Qed.

Lemma nn_Sigmoid_20 : nn_Sigmoid (FloatTensor 20) = 1.
Proof.
  unfold nn_Sigmoid, FloatTensor. rewrite float32_20.
  apply float32_saturates, Sigmoid_20_near_one.
Qed.

Lemma nn_Sigmoid_0 : nn_Sigmoid (FloatTensor 0) = 1 / 2.
Proof.
  unfold nn_Sigmoid, FloatTensor. rewrite float32_0. unfold Sigmoid.
  rewrite Ropp_0, exp_0. replace (1 / (1 + 1)) with (1 / 2) by lra.
  apply float32_half.
Qed.

Lemma float32_unit (x : R) : 0 <= x <= 1 -> 0 <= float32 x <= 1.
Proof.
  intros [H0 H1]. split; [now apply float32_nonneg|].
  change 1 with (powerRZ 2 0). apply float32_le_pow2; [lia|exact H1].
Qed.

Lemma float32_le_half (x : R) : x <= 1 / 2 -> float32 x <= 1 / 2.
Proof.
  intros H. replace (1 / 2) with (powerRZ 2 (-1)) in * by (pow2; lra).
  apply float32_le_pow2; [lia|exact H].
Qed.

Close Scope R_scope.
Set Implicit Arguments.

End Float32.

(* ================================================================== *)
(** ** The normalizer, row by row *)

Lemma normalize_rows (df : DataFrame) : normalize df = map normalize_row df.
Proof.
  unfold normalize, isin, normalize_row, is_logit_model.
  generalize logit_models as allowed. intros allowed.
  induction df as [|r df IH]; [reflexivity|].
  cbn [map loc loc_set_predictions].
  destruct (existsb (String.eqb (model r)) allowed);
    cbn [map loc loc_set_predictions]; now rewrite IH.
Qed.

Lemma is_logit_model_In (r : PredictionRecord) :
  is_logit_model r = true <-> In (model r) logit_models.
Proof.
  unfold is_logit_model. rewrite existsb_exists. split.
  - intros (x & Hin & E). apply String.eqb_eq in E. now subst.
  - intros H. exists (model r). split; [assumption|apply String.eqb_refl].
Qed.

Lemma Sigmoid_range (x : R) : (0 < Sigmoid x < 1)%R.
Proof.
  unfold Sigmoid. pose proof (exp_pos (- x)) as H.
  split.
  - apply Rdiv_lt_0_compat; lra.
  - apply Rmult_lt_reg_r with (1 + exp (- x))%R; [lra|].
    unfold Rdiv. rewrite Rmult_assoc, Rinv_l; lra.
Qed.

(* ================================================================== *)
(** ** The report, line by line *)

Lemma append_nil_r (s : string) : (s ++ "")%string = s.
Proof. induction s as [|a s IH]; simpl; [reflexivity|now rewrite IH]. Qed.

Lemma append_assoc (s1 s2 s3 : string) :
  ((s1 ++ s2) ++ s3)%string = (s1 ++ (s2 ++ s3))%string.
Proof. induction s1 as [|a s1 IH]; simpl; [reflexivity|now rewrite IH]. Qed.

Section ReportLines.

Variable format_finite : R -> string.

Lemma report_strategy_spec r t l x m s :
  report_strategy format_finite m (mkState r t l, x) s
  = (mkState r t (l ++ strategy_lines t m s),
     (x ++ strategy_latex format_finite t m s)%string).
Proof.
  unfold report_strategy, report_metric, strategy_lines, strategy_latex,
    logging, join, report_columns, metric_line, column_mean, column_std.
  cbn [fold_left fst snd results metrics log map fold_right].
  f_equal.
  - f_equal. now rewrite <- !app_assoc.
  - now rewrite append_nil_r, !append_assoc.
Qed.

Lemma report_strategies_spec m t (ss : list string) : forall r l x,
  fold_left (report_strategy format_finite m) ss (mkState r t l, x)
  = (mkState r t (l ++ flat_map (strategy_lines t m) ss),
     (x ++ join (map (strategy_latex format_finite t m) ss))%string).
Proof.
  induction ss as [|s ss IH]; intros r l x.
  - cbn [fold_left flat_map map join fold_right].
    now rewrite app_nil_r, append_nil_r.
  - cbn [fold_left]. rewrite report_strategy_spec, IH.
    cbn [flat_map map join fold_right].
    now rewrite <- app_assoc, append_assoc.
Qed.

Lemma report_model_spec r t l m :
  report_model format_finite (mkState r t l) m
  = mkState r t (l ++ model_lines format_finite t m).
Proof.
  unfold report_model. cbn [metrics].
  rewrite report_strategies_spec. unfold logging, model_lines, model_latex.
  cbn [fst snd results metrics log append].
  now rewrite <- app_assoc.
Qed.

Lemma report_models_spec t (ms : list string) : forall r l,
  fold_left (report_model format_finite) ms (mkState r t l)
  = mkState r t (l ++ flat_map (model_lines format_finite t) ms).
Proof.
  induction ms as [|m ms IH]; intros r l; cbn [fold_left flat_map].
  - now rewrite app_nil_r.
  - rewrite report_model_spec, IH. now rewrite <- app_assoc.
Qed.

Lemma report_spec r t l :
  report format_finite (mkState r t l)
  = mkState r t (l ++ report_lines format_finite t).
Proof. unfold report. cbn [metrics]. apply report_models_spec. Qed.

Lemma read_files_spec read_pickle (fps : list string) : forall r t l frames,
  fold_left (read_file read_pickle) fps (mkState r t l, frames)
  = (mkState r t (l ++ map reading_line fps), frames ++ map read_pickle fps).
Proof.
  induction fps as [|fp fps IH]; intros r t l frames; cbn [fold_left map].
  - now rewrite !app_nil_r.
  - unfold read_file at 2, logging. cbn [fst snd results metrics log].
    rewrite IH. now rewrite <- !app_assoc.
Qed.

(** A call of [run] with at least one file returns, leaving the
    normalized table, its metrics and the log of the whole pass. *)
Lemma run_spec read_pickle fp fps r t l :
  run format_finite read_pickle (fp :: fps) (mkState r t l)
  = Returned
      (mkState (normalize (loaded read_pickle (fp :: fps)))
         (compute_metrics (normalize (loaded read_pickle (fp :: fps))))
         (l ++ map reading_line (fp :: fps)
            ++ report_lines format_finite
                 (compute_metrics (normalize (loaded read_pickle (fp :: fps)))))).
Proof.
  unfold run. rewrite read_files_spec. cbn [fst snd app map concat].
  unfold set_results, set_metrics. cbn [results metrics log].
  rewrite report_spec. unfold loaded. cbn [map].
  now rewrite <- app_assoc.
Qed.

End ReportLines.

(* ================================================================== *)
(** * The claims *)

Lemma Forall2_map_same (A B : Type) (P : A -> B -> Prop) (f : A -> B)
    (l : list A) :
  (forall x, In x l -> P x (f x)) -> Forall2 P l (map f l).
Proof.
  induction l as [|x l IH]; intros H; simpl; constructor.
  - apply H. now left.
  - apply IH. intros; apply H; now right.
Qed.

(** C3. With no file matching the pattern, [run] returns: it logs the one
    warning and does nothing else. The table and the metrics are the ones
    held before the call, no file is read, no report line is written, and
    the call does not raise. Started from the initial state, the whole log
    is the warning. *)
Theorem run_no_files (format_finite : R -> string)
    (read_pickle : string -> DataFrame) (st : State) :
  run format_finite read_pickle [] st
  = Returned (mkState (results st) (metrics st)
                (log st ++ [mkLog WARNING "No files found. Quitting..." []]))
  /\ run format_finite read_pickle [] initial
     = Returned (mkState [] [] [mkLog WARNING "No files found. Quitting..." []]).
Proof. split; reflexivity. Qed.

(** A logit of 20 turns into exactly 1: the sigmoid of 20 is nearer to 1
    than to the float32 below 1. The stored value is neither inside the
    open interval nor the real number 1/(1+e^-20). *)
Lemma normalize_saturates :
  In (model logit_20) logit_models
  /\ normalize [logit_20] = [set_predictions 1 logit_20]
  /\ ~ (0 < predictions (set_predictions 1 logit_20) < 1)%R
  /\ predictions (set_predictions 1 logit_20)
     <> (1 / (1 + exp (- predictions logit_20)))%R.
Proof.
  split; [right; left; reflexivity|]. split; [|split].
  - rewrite normalize_rows. cbn [map]. unfold normalize_row.
    assert (E : is_logit_model logit_20 = true) by reflexivity.
    rewrite E. cbn [logit_20 predictions]. now rewrite nn_Sigmoid_20.
  - cbn [set_predictions predictions]. lra.
  - cbn [set_predictions predictions logit_20].
    pose proof (Sigmoid_range 20) as H. unfold Sigmoid in H. lra.
Qed.

(** C2. Row by row, the normalizer replaces the prediction [x] of a row
    whose model is one of the three logit models by the float32 nearest to
    1/(1+e^-x'), where x' is [x] as a float32: a value between 0 and 1,
    both ends included. It leaves the prediction of every other row as it
    is. *)
Theorem normalize_sigmoid (df : DataFrame) :
  List.length logit_models = 3%nat /\
  Forall2
    (fun r r' =>
       (In (model r) logit_models ->
        predictions r'
        = float32 (1 / (1 + exp (- float32 (predictions r))))%R
        /\ (0 <= predictions r' <= 1)%R)
       /\ (~ In (model r) logit_models -> predictions r' = predictions r))
    df (normalize df).
Proof.
  split; [reflexivity|].
  rewrite normalize_rows. apply Forall2_map_same. intros r _.
  unfold normalize_row.
  destruct (is_logit_model r) eqn:E.
  - split.
    + intros _. cbn [set_predictions predictions]. split.
      * reflexivity.
      * apply float32_unit.
        pose proof (Sigmoid_range (FloatTensor (predictions r))). lra.
    + intros H. apply is_logit_model_In in E. contradiction.
  - split.
    + intros H. apply is_logit_model_In in H. congruence.
    + reflexivity.
Qed.

(** C7. When [run] ends, the table it holds is the loaded table after the
    normalizer and nothing else: it has the same rows in the same order,
    every column other than [predictions] is as loaded in every row, and a
    row whose model is outside the logit models is as loaded in every
    field. The steps after the normalizer leave the table alone. *)
Theorem normalize_frame (format_finite : R -> string)
    (read_pickle : string -> DataFrame) (fp : string) (fps : list string)
    (st : State) :
  exists st',
    run format_finite read_pickle (fp :: fps) st = Returned st'
    /\ results st' = normalize (loaded read_pickle (fp :: fps))
    /\ Forall2
         (fun r r' =>
            same_other_columns r r'
            /\ (~ In (model r) logit_models -> r' = r))
         (loaded read_pickle (fp :: fps)) (results st')
    /\ results (report format_finite st') = results st'
    /\ results (set_metrics (compute_metrics (results st')) st') = results st'.
Proof.
  destruct st as [r t l]. rewrite run_spec. eexists. split; [reflexivity|].
  cbn [results]. split; [reflexivity|]. split.
  - rewrite normalize_rows. apply Forall2_map_same. intros x _.
    unfold normalize_row, same_other_columns.
    destruct (is_logit_model x) eqn:E.
    + split; [cbn; tauto|].
      intros H. apply is_logit_model_In in E. contradiction.
    + split; [tauto|reflexivity].
  - split; [|reflexivity]. now rewrite report_spec.
Qed.

Lemma key_of_fields (r : PredictionRecord) (k : GroupKey) :
  key_of r = k
  <-> seed r = g_seed k /\ user r = g_user k /\ model r = g_model k
      /\ strategy r = g_strategy k /\ reading_task r = g_reading_task k.
Proof.
  destruct r, k. unfold key_of. cbn. split.
  - intros [= -> -> -> -> ->]. auto.
  - intros (-> & -> & -> & -> & ->). reflexivity.
Qed.

(** C1. On a loaded table with at least one row, the aggregator splits the
    rows by the five key columns: the group of a key holds the rows of the
    table that agree with it on seed, user, model, strategy and reading
    task, and the groups of the keys of the merged table are a
    rearrangement of the table. The merged table has exactly one row per
    observed key (no key twice, and a key occurs exactly when some row of
    the table carries its five values), and each row carries all five
    metrics, each one the value of its metric on the float32 predictions
    and the targets of the rows of that group alone. *)
Theorem metrics_per_group (r0 : PredictionRecord) (rest : DataFrame) :
  let df := r0 :: rest in
  let t := compute_metrics df in
  Permutation (flat_map (fun k => get_group k df) (map m_key t)) df
  /\ (forall k r,
        In r (get_group k df)
        <-> In r df /\ seed r = g_seed k /\ user r = g_user k
            /\ model r = g_model k /\ strategy r = g_strategy k
            /\ reading_task r = g_reading_task k)
  /\ NoDup (map m_key t)
  /\ (forall k,
        In k (map m_key t)
        <-> exists r,
              In r df /\ seed r = g_seed k /\ user r = g_user k
              /\ model r = g_model k /\ strategy r = g_strategy k
              /\ reading_task r = g_reading_task k)
  /\ t <> []
  /\ Forall
       (fun row =>
          let x := get_group (m_key row) df in
          let scores := map float32 (map predictions x) in
          mcc row = BinaryMatthewsCorrCoef scores (map targets x)
          /\ kappa row = BinaryCohenKappa scores (map targets x)
          /\ precision row = BinaryPrecision scores (map targets x)
          /\ recall row = BinaryRecall scores (map targets x)
          /\ auc row = BinaryAUROC scores (map targets x))
       t.
Proof.
  intros df t.
  assert (K : map m_key t = group_keys df).
  { unfold t. rewrite compute_metrics_rows, map_map. cbn [metric_row m_key].
    apply map_id. }
  rewrite K.
  split; [|split; [|split; [|split; [|split]]]].
  - apply group_keys_partition.
  - intros k r. rewrite get_group_In, key_of_fields. reflexivity.
  - apply group_keys_NoDup.
  - intros k. rewrite group_keys_In. split.
    + intros (r & Hr & E). exists r. split; [assumption|].
      now apply key_of_fields.
    + intros (r & Hr & E). exists r. split; [assumption|].
      now apply key_of_fields.
  - intros E. assert (H : In (key_of r0) (map m_key t)).
    { rewrite K. apply group_keys_In. exists r0. split; [now left|reflexivity]. }
    rewrite E in H. exact H.
  - unfold t. rewrite compute_metrics_rows. apply Forall_forall.
    intros row Hrow. apply in_map_iff in Hrow as (k & <- & _).
    cbn. unfold on_group, tensor. tauto.
Qed.

(* ================================================================== *)
(** ** Order of the report *)

Lemma headers_app (l1 l2 : list LogRecord) :
  headers (l1 ++ l2) = headers l1 ++ headers l2.
Proof.
  induction l1 as [|rec l1 IH]; simpl; [reflexivity|].
  destruct (header_of rec); simpl; now rewrite IH.
Qed.

Lemma headers_model_lines fmt t m :
  headers (model_lines fmt t m) = map (pair m) (rev (strategies_of t)).
Proof.
  unfold model_lines. rewrite headers_app. cbn [headers header_of args].
  rewrite app_nil_r.
  induction (rev (strategies_of t)) as [|s ss IH]; [reflexivity|].
  cbn [flat_map map]. rewrite headers_app, IH. reflexivity.
Qed.

Lemma headers_report_lines fmt t :
  headers (report_lines fmt t)
  = flat_map (fun m => map (pair m) (rev (strategies_of t))) (models_of t).
Proof.
  unfold report_lines.
  induction (models_of t) as [|m ms IH]; [reflexivity|].
  cbn [flat_map]. now rewrite headers_app, headers_model_lines, IH.
Qed.


(* ================================================================== *)
(** ** Pairs of model and strategy without rows *)

Lemma join_app (l1 l2 : list string) :
  join (l1 ++ l2) = (join l1 ++ join l2)%string.
Proof.
  induction l1 as [|x l1 IH]; simpl; [reflexivity|].
  now rewrite IH, append_assoc.
Qed.

Lemma select_empty (t : list MetricRow) (m s : string) :
  (forall row, In row t ->
     ~ (g_model (m_key row) = m /\ g_strategy (m_key row) = s)) ->
  select m s t = [].
Proof.
  intros H. unfold select.
  induction t as [|row t IH]; simpl; [reflexivity|].
  destruct (String.eqb (g_model (m_key row)) m) eqn:E1;
    destruct (String.eqb (g_strategy (m_key row)) s) eqn:E2; simpl;
    try (apply IH; intros; apply H; now right).
  apply String.eqb_eq in E1, E2. exfalso. apply (H row); [now left|tauto].
Qed.

(** C9. A strategy that occurs in the merged table is reported for every
    model of the table, also for a model that has no row with it: the
    Reporter logs the heading of the pair followed by the three metric
    lines, mean and standard deviation both NaN, and the LaTeX line of the
    model carries the three fragments of the pair, rendered from NaN. *)
Theorem report_pair_without_rows (format_finite : R -> string) (st : State)
    (m s : string) :
  In m (map (fun r => g_model (m_key r)) (metrics st)) ->
  In s (map (fun r => g_strategy (m_key r)) (metrics st)) ->
  (forall row, In row (metrics st) ->
     ~ (g_model (m_key row) = m /\ g_strategy (m_key row) = s)) ->
  exists before between after latex_before latex_after,
    log (report format_finite st)
    = log st ++ before
      ++ [header_line m s; nan_line c_auc; nan_line c_precision;
          nan_line c_recall]
      ++ between
      ++ [mkLog INFO
            (latex_before ++ "& nan (nan) & nan (nan) & nan (nan) "
               ++ latex_after) []]
      ++ after.
Proof.
  destruct st as [r t l]. cbn [metrics log]. intros Hm Hs Hnone.
  apply (unique_In String.eqb String.eqb_eq) in Hm.
  apply (unique_In String.eqb String.eqb_eq), in_rev in Hs.
  apply in_split in Hm as (ms1 & ms2 & Hm).
  apply in_split in Hs as (ss1 & ss2 & Hs).
  pose proof (select_empty t Hnone) as Hsel.
  rewrite report_spec. cbn [log]. unfold report_lines, models_of.
  fold (models_of t). unfold models_of. rewrite Hm, flat_map_app.
  cbn [flat_map]. unfold model_lines at 2, model_latex, strategies_of.
  rewrite Hs, flat_map_app, map_app, join_app. cbn [flat_map map join fold_right].
  fold (join (map (strategy_latex format_finite t m) ss2)).
  assert (E1 : strategy_lines t m s
               = [header_line m s; nan_line c_auc; nan_line c_precision;
                  nan_line c_recall]).
  { unfold strategy_lines, metric_line, column_mean, column_std, nan_line.
    rewrite Hsel. reflexivity. }
  assert (E2 : strategy_latex format_finite t m s
               = "& nan (nan) & nan (nan) & nan (nan) "%string).
  { unfold strategy_latex, column_mean, column_std. rewrite Hsel. reflexivity. }
  rewrite E1, E2.
  eexists (flat_map _ ms1 ++ flat_map _ ss1), (flat_map _ ss2),
    (flat_map _ ms2), _, _.
  rewrite <- !app_assoc. reflexivity.
Qed.

(* ================================================================== *)
(** ** What the report depends on *)

Lemma select_forget (t : list MetricRow) (m s : string) :
  select m s (map forget_mcc_kappa t) = map forget_mcc_kappa (select m s t).
Proof.
  unfold select. induction t as [|r t IH]; simpl; [reflexivity|].
  destruct (_ && _); simpl; now rewrite IH.
Qed.

Lemma column_forget (t : list MetricRow) (m s : string) (c : Column) :
  In c report_columns ->
  map (column c) (select m s (map forget_mcc_kappa t))
  = map (column c) (select m s t).
Proof.
  intros Hc. rewrite select_forget, map_map. apply map_ext. intros r.
  destruct Hc as [<-|[<-|[<-|[]]]]; reflexivity.
Qed.

Lemma keys_forget (t : list MetricRow) :
  map m_key (map forget_mcc_kappa t) = map m_key t.
Proof. rewrite map_map. reflexivity. Qed.

Lemma models_forget (t : list MetricRow) :
  models_of (map forget_mcc_kappa t) = models_of t.
Proof. unfold models_of. now rewrite map_map. Qed.

Lemma strategies_forget (t : list MetricRow) :
  strategies_of (map forget_mcc_kappa t) = strategies_of t.
Proof. unfold strategies_of. now rewrite map_map. Qed.

Lemma report_lines_forget fmt (t : list MetricRow) :
  report_lines fmt (map forget_mcc_kappa t) = report_lines fmt t.
Proof.
  assert (L : forall m s, strategy_lines (map forget_mcc_kappa t) m s
                          = strategy_lines t m s).
  { intros m s. unfold strategy_lines, metric_line, column_mean, column_std.
    f_equal. apply map_ext_in. intros c Hc. now rewrite column_forget. }
  assert (X : forall m s, strategy_latex fmt (map forget_mcc_kappa t) m s
                          = strategy_latex fmt t m s).
  { intros m s. unfold strategy_latex, column_mean, column_std.
    f_equal. apply map_ext_in. intros c Hc. now rewrite column_forget. }
  unfold report_lines, model_lines, model_latex.
  rewrite models_forget, strategies_forget.
  apply flat_map_ext. intros m. f_equal.
  - apply flat_map_ext. intros s. apply L.
  - do 3 f_equal. apply map_ext. intros s. apply X.
Qed.

Lemma mixed_seeds_mean : column_mean mixed_seeds "eegnet" "A" c_auc = Fin 0.9.
Proof.
  unfold column_mean, mean. cbn [mixed_seeds select filter m_key g_model
    g_strategy String.eqb Ascii.eqb Bool.eqb andb map column auc dropna].
  f_equal. unfold Rmean. cbn [Rsum fold_right List.length INR]. lra.
Qed.

Lemma mixed_seeds_std : column_std mixed_seeds "eegnet" "A" c_auc = Fin 0.1.
Proof.
  unfold column_std, std. cbn [mixed_seeds select filter m_key g_model
    g_strategy String.eqb Ascii.eqb Bool.eqb andb map column auc dropna].
  f_equal. unfold Rmean.
  cbn [Rsum fold_right List.length INR map Nat.sub].
  replace (_ / _)%R with (0.1 * 0.1)%R by lra.
  apply sqrt_square. lra.
Qed.

(** C4. The report is, for every model and for every strategy in the
    reversed first-seen order, the heading followed by one line for each of
    auc, precision and recall, in that order, whose values are the mean and
    the sample standard deviation of that column over the rows of the
    merged table that carry that model and that strategy, and over no
    other row; then the LaTeX line of the model. The report does not
    depend on mcc and kappa: erasing both columns leaves every report line
    as it is. In a table of two models and two strategies, the three rows
    of one pair with auc 0.8, 0.9 and 1.0 are reported with mean 0.9 and
    standard deviation 0.1. *)
Theorem report_mean_std (format_finite : R -> string) (st : State) :
  let t := metrics st in
  let rows_of (m s : string) :=
    filter (fun r => String.eqb (g_model (m_key r)) m
                     && String.eqb (g_strategy (m_key r)) s) t in
  let line (name : string) (values : list num) :=
    mkLog INFO "%s: %.2f +- %.2f"
          [AStr name; ANum (mean values); ANum (std values)] in
  log (report format_finite st)
  = log st
    ++ flat_map
         (fun m =>
            flat_map
              (fun s =>
                 [header_line m s;
                  line "auc"%string (map auc (rows_of m s));
                  line "precision"%string (map precision (rows_of m s));
                  line "recall"%string (map recall (rows_of m s))])
              (rev (strategies_of t))
            ++ [mkLog INFO (model_latex format_finite t m) []])
         (models_of t)
  /\ (forall m s row,
        In row (rows_of m s)
        <-> In row t /\ g_model (m_key row) = m /\ g_strategy (m_key row) = s)
  /\ report_lines format_finite (map forget_mcc_kappa t)
     = report_lines format_finite t
  /\ In (mkLog INFO "%s: %.2f +- %.2f"
           [AStr "auc"; ANum (Fin 0.9); ANum (Fin 0.1)])
        (log (report format_finite (mkState [] mixed_seeds []))).
Proof.
  intros t rows_of line. destruct st as [r t' l]. cbn in t. subst t.
  split; [|split; [|split]].
  - rewrite report_spec. reflexivity.
  - intros m s row. unfold rows_of.
    rewrite filter_In, andb_true_iff, !String.eqb_eq. tauto.
  - apply report_lines_forget.
  - rewrite report_spec. cbn [log app].
    unfold report_lines, model_lines.
    assert (M : models_of mixed_seeds = ["eegnet"; "svm"]%string)
      by reflexivity.
    assert (S : strategies_of mixed_seeds = ["A"; "B"]%string) by reflexivity.
    rewrite M, S. cbn [rev app flat_map strategy_lines report_columns map].
    do 5 right. left. unfold metric_line.
    now rewrite mixed_seeds_mean, mixed_seeds_std.
Qed.

(* ================================================================== *)
(** ** The metrics on a separable group *)

Lemma above_threshold_true (p : R) : (1 / 2 < p)%R -> above_threshold p = true.
Proof. intros H. unfold above_threshold. now destruct (Rlt_dec (1 / 2) p). Qed.

Lemma above_threshold_false (p : R) :
  (p <= 1 / 2)%R -> above_threshold p = false.
Proof.
  intros H. unfold above_threshold.
  destruct (Rlt_dec (1 / 2) p); [lra|reflexivity].
Qed.

Lemma pair_score_above (p n : R) : (n < p)%R -> pair_score p n = 1%R.
Proof. intros H. unfold pair_score. now destruct (Rlt_dec n p). Qed.

Lemma pair_score_below (p n : R) : (p < n)%R -> pair_score p n = 0%R.
Proof.
  intros H. unfold pair_score.
  destruct (Rlt_dec n p); [lra|]. now destruct (Rlt_dec p n).
Qed.

Lemma pair_score_tie (p : R) : pair_score p p = (1 / 2)%R.
Proof.
  unfold pair_score.
  destruct (Rlt_dec p p) as [H|H]; [lra|reflexivity].
Qed.


Lemma example_cells :
  tp example_predictions example_targets = 2%nat
  /\ fp example_predictions example_targets = 0%nat
  /\ fn example_predictions example_targets = 0%nat
  /\ tn example_predictions example_targets = 2%nat.
Proof.
  unfold tp, fp, fn, tn, count, example_predictions, example_targets.
  cbn [combine filter fst snd].
  rewrite (above_threshold_true (p := 0.9)) by lra.
  rewrite (above_threshold_true (p := 0.8)) by lra.
  rewrite (above_threshold_false (p := 0.2)) by lra.
  rewrite (above_threshold_false (p := 0.1)) by lra.
  repeat split.
Qed.


(* ================================================================== *)
(** ** Ranges of the metrics *)

Open Scope R_scope.

Lemma ratio_range (a : R) (d : nat) (lo hi : R) :
  (d <> O -> lo * INR d <= a <= hi * INR d) -> in_range lo hi (ratio a d).
Proof.
  destruct d as [|d]; [constructor|]. intros H.
  specialize (H (Nat.neq_succ_0 d)). cbn [ratio in_range].
  assert (P : 0 < INR (S d)) by (apply lt_0_INR; lia).
  split.
  - apply Rmult_le_reg_r with (INR (S d)); [assumption|].
    unfold Rdiv. rewrite Rmult_assoc, Rinv_l; lra.
  - apply Rmult_le_reg_r with (INR (S d)); [assumption|].
    unfold Rdiv. rewrite Rmult_assoc, Rinv_l; lra.
Qed.

Lemma ratio_nan (a : R) (d : nat) : ratio a d = NaN -> d = O.
Proof. destruct d; [reflexivity|discriminate]. Qed.

Lemma precision_range preds target :
  in_range 0 1 (BinaryPrecision preds target).
Proof.
  unfold BinaryPrecision. apply ratio_range. intros _.
  rewrite plus_INR.
  pose proof (pos_INR (tp preds target)). pose proof (pos_INR (fp preds target)).
  lra.
Qed.

Lemma recall_range preds target : in_range 0 1 (BinaryRecall preds target).
Proof.
  unfold BinaryRecall. apply ratio_range. intros _.
  rewrite plus_INR.
  pose proof (pos_INR (tp preds target)). pose proof (pos_INR (fn preds target)).
  lra.
Qed.

Lemma pair_score_range (p n : R) : 0 <= pair_score p n <= 1.
Proof.
  unfold pair_score. destruct (Rlt_dec n p); [lra|].
  destruct (Rlt_dec p n); lra.
Qed.

Lemma Rsum_range (A : Type) (f : A -> R) (hi : R) (l : list A) :
  (forall x, In x l -> 0 <= f x <= hi) ->
  0 <= Rsum (map f l) <= hi * INR (List.length l).
Proof.
  induction l as [|x l IH]; intros H.
  - cbn. lra.
  - cbn [map Rsum fold_right List.length]. rewrite S_INR.
    fold (Rsum (map f l)).
    assert (Hx : 0 <= f x <= hi) by (apply H; now left).
    assert (Hl : 0 <= Rsum (map f l) <= hi * INR (List.length l))
      by (apply IH; intros; apply H; now right).
    lra.
Qed.

Lemma auroc_range preds target : in_range 0 1 (BinaryAUROC preds target).
Proof.
  unfold BinaryAUROC. apply ratio_range. intros _.
  set (pos := scores_where 1 preds target).
  set (neg := scores_where 0 preds target).
  rewrite mult_INR.
  assert (H : 0 <= Rsum (map (fun p => Rsum (map (pair_score p) neg)) pos)
              <= (1 * INR (List.length neg)) * INR (List.length pos)).
  { apply Rsum_range. intros p _. apply Rsum_range. intros n _.
    apply pair_score_range. }
  lra.
Qed.

Lemma mcc_range preds target :
  in_range (-1) 1 (BinaryMatthewsCorrCoef preds target).
Proof.
  unfold BinaryMatthewsCorrCoef.
  set (a := tp preds target). set (b := fp preds target).
  set (c := fn preds target). set (d := tn preds target).
  destruct ((a + b) * (a + c) * (d + b) * (d + c))%nat as [|k] eqn:E;
    [constructor|].
  rewrite <- E. cbn [in_range].
  assert (Pk : 0 < INR ((a + b) * (a + c) * (d + b) * (d + c)))
    by (apply lt_0_INR; lia).
  set (den := INR ((a + b) * (a + c) * (d + b) * (d + c))) in *.
  pose proof (sqrt_lt_R0 den Pk) as Ps.
  pose proof (sqrt_sqrt den (Rlt_le _ _ Pk)) as Hs.
  set (x := INR a * INR d - INR b * INR c).
  assert (Hx : x * x <= den).
  { unfold den, x. rewrite !mult_INR, !plus_INR.
    pose proof (pos_INR a) as Ha. pose proof (pos_INR b) as Hb.
    pose proof (pos_INR c) as Hc. pose proof (pos_INR d) as Hd.
    set (A := INR a) in *. set (B := INR b) in *.
    set (C := INR c) in *. set (D := INR d) in *.
    assert (HP : 0 <= A * D) by now apply Rmult_le_pos.
    assert (HQ : 0 <= B * C) by now apply Rmult_le_pos.
    assert (HU : 0 <= A * C + B * D)
      by (apply Rplus_le_le_0_compat; now apply Rmult_le_pos).
    assert (HV : 0 <= A * B + C * D)
      by (apply Rplus_le_le_0_compat; now apply Rmult_le_pos).
    replace ((A + B) * (A + C) * (D + B) * (D + C))
      with ((A * D + B * C + (A * C + B * D)) * (A * D + B * C + (A * B + C * D)))
      by ring.
    generalize dependent (A * D). generalize dependent (B * C).
    generalize dependent (A * C + B * D). generalize dependent (A * B + C * D).
    intros V HV U HU Q HQ P HP. nra. }
  set (s := sqrt den) in *.
  assert (Hb : - s <= x <= s) by nra.
  split.
  - apply Rmult_le_reg_r with s; [assumption|].
    unfold Rdiv. rewrite Rmult_assoc, Rinv_l; lra.
  - apply Rmult_le_reg_r with s; [assumption|].
    unfold Rdiv. rewrite Rmult_assoc, Rinv_l; lra.
Qed.

Lemma kappa_range preds target :
  in_range (-1) 1 (BinaryCohenKappa preds target).
Proof.
  unfold BinaryCohenKappa.
  set (a := tp preds target). set (b := fp preds target).
  set (c := fn preds target). set (d := tn preds target).
  apply ratio_range. intros _.
  assert (L : ((a + b) * (a + c) + (d + c) * (d + b)
               <= (a + b + c + d) * (a + b + c + d))%nat) by nia.
  rewrite (minus_INR _ _ L).
  rewrite !plus_INR, !mult_INR, !plus_INR.
  pose proof (pos_INR a) as Ha. pose proof (pos_INR b) as Hb.
  pose proof (pos_INR c) as Hc. pose proof (pos_INR d) as Hd.
  set (A := INR a) in *. set (B := INR b) in *.
  set (C := INR c) in *. set (D := INR d) in *.
  assert (AB : 0 <= A * B) by now apply Rmult_le_pos.
  assert (AC : 0 <= A * C) by now apply Rmult_le_pos.
  assert (AD : 0 <= A * D) by now apply Rmult_le_pos.
  assert (BD : 0 <= B * D) by now apply Rmult_le_pos.
  assert (CD : 0 <= C * D) by now apply Rmult_le_pos.
  assert (BC : 0 <= B * C) by now apply Rmult_le_pos.
  clearbody A B C D. clear a b c d L.
  pose proof (Rle_0_sqr (B - C)) as SQ. unfold Rsqr in SQ.
  split; nra.
Qed.

Close Scope R_scope.

(** *** When a metric is undefined *)

Lemma combine_columns (x : DataFrame) :
  combine (tensor (map predictions x)) (map targets x)
  = map (fun r => (float32 (predictions r), targets r)) x.
Proof.
  unfold tensor.
  induction x as [|r x IH]; cbn [map combine]; [reflexivity|now rewrite IH].
Qed.

Lemma count_map (A B : Type) (h : A -> B) (f : B -> bool) (l : list A) :
  count f (map h l) = count (fun a => f (h a)) l.
Proof.
  unfold count. induction l as [|a l IH]; simpl; [reflexivity|].
  destruct (f (h a)); simpl; now rewrite IH.
Qed.

Lemma count_zero (A : Type) (f : A -> bool) (l : list A) :
  count f l = O -> forall a, In a l -> f a = false.
Proof.
  unfold count. induction l as [|b l IH]; simpl; [tauto|].
  destruct (f b) eqn:E; simpl; [discriminate|].
  intros H a [<-|Ha]; auto.
Qed.

Section Degenerate.

Variable x : DataFrame.
Hypothesis binary : binary_targets x.

Let preds := tensor (map predictions x).
Let target := map targets x.

Lemma cell_zero (pred_side : bool -> bool) (c : Z) :
  count (fun pt : R * Z => pred_side (above_threshold (fst pt)) && (snd pt =? c)%Z)
        (combine preds target) = O ->
  forall r, In r x ->
    pred_side (above_threshold (float32 (predictions r))) && (targets r =? c)%Z = false.
Proof.
  unfold preds, target. rewrite combine_columns, count_map. cbn [fst snd].
  intros H r Hr.
  apply (count_zero
           (fun a => pred_side (above_threshold (float32 (predictions a)))
                     && (targets a =? c)%Z) x H r Hr).
Qed.

Lemma targets_binary_at (r : PredictionRecord) :
  In r x -> targets r = 0%Z \/ targets r = 1%Z.
Proof. intros Hr. unfold binary_targets in binary.
       rewrite Forall_forall in binary. auto. Qed.

Lemma no_positive_target :
  (tp preds target + fn preds target = 0)%nat ->
  forall r, In r x -> targets r = 0%Z.
Proof.
  intros H r Hr.
  assert (H1 : tp preds target = O) by lia.
  assert (H2 : fn preds target = O) by lia.
  pose proof (cell_zero (fun b => b) 1 H1 r Hr) as E1.
  pose proof (cell_zero negb 1 H2 r Hr) as E2. cbn beta in E1, E2.
  destruct (targets_binary_at r Hr) as [T|T]; [assumption|].
  rewrite T in E1, E2. cbn in E1, E2.
  destruct (above_threshold (float32 (predictions r))); discriminate.
Qed.

Lemma no_negative_target :
  (tn preds target + fp preds target = 0)%nat ->
  forall r, In r x -> targets r = 1%Z.
Proof.
  intros H r Hr.
  assert (H1 : fp preds target = O) by lia.
  assert (H2 : tn preds target = O) by lia.
  pose proof (cell_zero (fun b => b) 0 H1 r Hr) as E1.
  pose proof (cell_zero negb 0 H2 r Hr) as E2. cbn beta in E1, E2.
  destruct (targets_binary_at r Hr) as [T|T]; [|assumption].
  rewrite T in E1, E2. cbn in E1, E2.
  destruct (above_threshold (float32 (predictions r))); discriminate.
Qed.

Lemma no_positive_prediction :
  (tp preds target + fp preds target = 0)%nat ->
  forall r, In r x -> above_threshold (float32 (predictions r)) = false.
Proof.
  intros H r Hr.
  assert (H1 : tp preds target = O) by lia.
  assert (H2 : fp preds target = O) by lia.
  pose proof (cell_zero (fun b => b) 1 H1 r Hr) as E1.
  pose proof (cell_zero (fun b => b) 0 H2 r Hr) as E2. cbn beta in E1, E2.
  destruct (above_threshold (float32 (predictions r))); [|reflexivity].
  destruct (targets_binary_at r Hr) as [T|T]; rewrite T in E1, E2;
    discriminate.
Qed.

Lemma no_negative_prediction :
  (tn preds target + fn preds target = 0)%nat ->
  forall r, In r x -> above_threshold (float32 (predictions r)) = true.
Proof.
  intros H r Hr.
  assert (H1 : fn preds target = O) by lia.
  assert (H2 : tn preds target = O) by lia.
  pose proof (cell_zero negb 1 H1 r Hr) as E1.
  pose proof (cell_zero negb 0 H2 r Hr) as E2. cbn beta in E1, E2.
  destruct (above_threshold (float32 (predictions r))); [reflexivity|].
  destruct (targets_binary_at r Hr) as [T|T]; rewrite T in E1, E2;
    discriminate.
Qed.

Lemma scores_where_empty (c : Z) :
  List.length (scores_where c preds target) = O ->
  forall r, In r x -> targets r <> c.
Proof.
  unfold scores_where, preds, target.
  rewrite combine_columns, length_map. intros H r Hr E.
  assert (F : (fun pt : R * Z => (snd pt =? c)%Z)
                (float32 (predictions r), targets r)
              = false).
  { apply (count_zero (fun pt : R * Z => (snd pt =? c)%Z)
             (map (fun r => (float32 (predictions r), targets r)) x) H).
    apply (in_map (fun r => (float32 (predictions r), targets r))), Hr. }
  cbn in F. apply Z.eqb_neq in F. contradiction.
Qed.

Lemma recall_nan : BinaryRecall preds target = NaN -> single_target_class x.
Proof.
  intros H%ratio_nan. left. now apply no_positive_target.
Qed.

Lemma precision_nan :
  BinaryPrecision preds target = NaN -> single_predicted_class x.
Proof.
  intros H%ratio_nan. left. now apply no_positive_prediction.
Qed.

Lemma auroc_nan : BinaryAUROC preds target = NaN -> single_target_class x.
Proof.
  intros H%ratio_nan. apply Nat.eq_mul_0 in H as [H|H].
  - left. intros r Hr.
    destruct (targets_binary_at r Hr) as [T|T]; [assumption|].
    now apply (scores_where_empty H r Hr) in T.
  - right. intros r Hr.
    destruct (targets_binary_at r Hr) as [T|T]; [|assumption].
    now apply (scores_where_empty H r Hr) in T.
Qed.

Lemma kappa_nan : BinaryCohenKappa preds target = NaN -> single_target_class x.
Proof.
  unfold BinaryCohenKappa. intros H%ratio_nan.
  set (a := tp preds target) in *. set (b := fp preds target) in *.
  set (c := fn preds target) in *. set (d := tn preds target) in *.
  assert (C : (a + c = 0 \/ d + b = 0)%nat) by nia.
  destruct C as [C|C].
  - left. now apply no_positive_target.
  - right. now apply no_negative_target.
Qed.

Lemma mcc_nan :
  BinaryMatthewsCorrCoef preds target = NaN ->
  single_target_class x \/ single_predicted_class x.
Proof.
  unfold BinaryMatthewsCorrCoef.
  set (a := tp preds target). set (b := fp preds target).
  set (c := fn preds target). set (d := tn preds target).
  destruct ((a + b) * (a + c) * (d + b) * (d + c))%nat as [|k] eqn:E;
    [intros _|discriminate].
  assert (C : (a + b = 0 \/ a + c = 0 \/ d + b = 0 \/ d + c = 0)%nat).
  { apply Nat.eq_mul_0 in E as [E|E]; [|tauto].
    apply Nat.eq_mul_0 in E as [E|E]; [|tauto].
    apply Nat.eq_mul_0 in E as [E|E]; tauto. }
  destruct C as [C|[C|[C|C]]].
  - right. left. now apply no_positive_prediction.
  - left. left. now apply no_positive_target.
  - left. right. now apply no_negative_target.
  - right. right. now apply no_negative_prediction.
Qed.

End Degenerate.

Lemma binary_targets_group (k : GroupKey) (df : DataFrame) :
  binary_targets df -> binary_targets (get_group k df).
Proof.
  unfold binary_targets. rewrite !Forall_forall. intros H r Hr.
  apply get_group_In in Hr as [Hr _]. auto.
Qed.



(* ================================================================== *)
(** ** Independence from the order in which [glob] lists the files *)

Lemma concat_perm (A : Type) (l l' : list (list A)) :
  Permutation l l' -> Permutation (List.concat l) (List.concat l').
Proof.
  induction 1 as [|x l l' _ IH|x y l|l l' l'' _ IH1 _ IH2]; simpl.
  - constructor.
  - now apply Permutation_app_head.
  - rewrite !app_assoc. apply Permutation_app_tail, Permutation_app_comm.
  - now transitivity (List.concat l').
Qed.

Lemma filter_perm (A : Type) (f : A -> bool) (l l' : list A) :
  Permutation l l' -> Permutation (filter f l) (filter f l').
Proof.
  induction 1 as [|x l l' _ IH|x y l|l l' l'' _ IH1 _ IH2]; simpl.
  - constructor.
  - destruct (f x); [now constructor|assumption].
  - destruct (f x), (f y); try reflexivity. apply perm_swap.
  - now transitivity (filter f l').
Qed.

Lemma count_perm (A : Type) (f : A -> bool) (l l' : list A) :
  Permutation l l' -> count f l = count f l'.
Proof.
  intros P. unfold count. now apply Permutation_length, filter_perm.
Qed.

Lemma Rsum_perm (l l' : list R) : Permutation l l' -> Rsum l = Rsum l'.
Proof.
  induction 1 as [|x l l' _ IH|x y l|l l' l'' _ IH1 _ IH2]; simpl.
  - reflexivity.
  - fold (Rsum l) (Rsum l'). now rewrite IH.
  - fold (Rsum l). ring.
  - congruence.
Qed.

Lemma loaded_perm read_pickle (fps fps' : list string) :
  Permutation fps fps' ->
  Permutation (loaded read_pickle fps) (loaded read_pickle fps').
Proof. intros P. unfold loaded. now apply concat_perm, Permutation_map. Qed.

Lemma normalize_perm (df df' : DataFrame) :
  Permutation df df' -> Permutation (normalize df) (normalize df').
Proof. intros P. rewrite !normalize_rows. now apply Permutation_map. Qed.

Lemma group_keys_perm (df df' : DataFrame) :
  Permutation df df' -> group_keys df = group_keys df'.
Proof.
  intros P. unfold group_keys. apply sort_keys_invariant.
  apply NoDup_Permutation; try (apply unique_NoDup, key_eqb_eq).
  intros k. rewrite !(unique_In key_eqb key_eqb_eq).
  split; apply Permutation_in; [|apply Permutation_sym];
    now apply Permutation_map.
Qed.

Lemma get_group_perm (k : GroupKey) (df df' : DataFrame) :
  Permutation df df' -> Permutation (get_group k df) (get_group k df').
Proof. apply filter_perm. Qed.

Section GroupOrder.

Variables x x' : DataFrame.
Hypothesis same_rows : Permutation x x'.

Lemma pairs_perm :
  Permutation (combine (tensor (map predictions x)) (map targets x))
              (combine (tensor (map predictions x')) (map targets x')).
Proof. rewrite !combine_columns. now apply Permutation_map. Qed.

Lemma cells_perm :
  tp (tensor (map predictions x)) (map targets x) = tp (tensor (map predictions x')) (map targets x')
  /\ fp (tensor (map predictions x)) (map targets x)
     = fp (tensor (map predictions x')) (map targets x')
  /\ fn (tensor (map predictions x)) (map targets x)
     = fn (tensor (map predictions x')) (map targets x')
  /\ tn (tensor (map predictions x)) (map targets x)
     = tn (tensor (map predictions x')) (map targets x').
Proof.
  unfold tp, fp, fn, tn. repeat split; apply count_perm, pairs_perm.
Qed.

Lemma scores_where_perm (c : Z) :
  Permutation (scores_where c (tensor (map predictions x)) (map targets x))
              (scores_where c (tensor (map predictions x')) (map targets x')).
Proof. unfold scores_where. apply Permutation_map, filter_perm, pairs_perm. Qed.

Lemma rank_sum_perm (pos pos' neg neg' : list R) :
  Permutation pos pos' -> Permutation neg neg' ->
  Rsum (map (fun p => Rsum (map (pair_score p) neg)) pos)
  = Rsum (map (fun p => Rsum (map (pair_score p) neg')) pos').
Proof.
  intros Pp Pn.
  rewrite (Rsum_perm (Permutation_map _ Pp)). f_equal.
  apply map_ext. intros p. apply Rsum_perm. now apply Permutation_map.
Qed.

Lemma on_group_perm :
  on_group BinaryMatthewsCorrCoef x = on_group BinaryMatthewsCorrCoef x'
  /\ on_group BinaryPrecision x = on_group BinaryPrecision x'
  /\ on_group BinaryCohenKappa x = on_group BinaryCohenKappa x'
  /\ on_group BinaryRecall x = on_group BinaryRecall x'
  /\ on_group BinaryAUROC x = on_group BinaryAUROC x'.
Proof.
  destruct cells_perm as (Ea & Eb & Ec & Ed).
  unfold on_group, BinaryMatthewsCorrCoef, BinaryPrecision, BinaryCohenKappa,
    BinaryRecall, BinaryAUROC.
  rewrite Ea, Eb, Ec, Ed.
  rewrite (rank_sum_perm (scores_where_perm 1) (scores_where_perm 0)).
  rewrite (Permutation_length (scores_where_perm 1)).
  rewrite (Permutation_length (scores_where_perm 0)).
  repeat split.
Qed.

End GroupOrder.

Lemma compute_metrics_perm (df df' : DataFrame) :
  Permutation df df' -> compute_metrics df = compute_metrics df'.
Proof.
  intros P. rewrite !compute_metrics_rows, (group_keys_perm P).
  apply map_ext. intros k. unfold metric_row.
  destruct (on_group_perm (get_group_perm k P)) as (E1 & E2 & E3 & E4 & E5).
  now rewrite E1, E2, E3, E4, E5.
Qed.

(* ================================================================== *)
(** ** Instances *)

(** First appearance decides the order of [unique]. *)
Example unique_first_seen :
  unique String.eqb ["B"; "A"; "B"; "C"; "A"]%string = ["B"; "A"; "C"]%string.
Proof. reflexivity. Qed.

(** The groups come sorted by key, whatever the order of the rows; the
    reversed strategies of the merged table follow. *)
Example group_keys_sorted :
  group_keys
    [mkRecord 2 "u1" "svm" "B" "t" 1 1; mkRecord 1 "u2" "eegnet" "A" "t" 0 0;
     mkRecord 2 "u1" "svm" "B" "t" 0 0; mkRecord 1 "u1" "lstm" "B" "t" 1 1]
  = [mkKey 1 "u1" "lstm" "B" "t"; mkKey 1 "u2" "eegnet" "A" "t";
     mkKey 2 "u1" "svm" "B" "t"].
Proof. reflexivity. Qed.

(** A logit of 0 becomes the probability one half; a row of another model
    keeps its score. *)
Example normalize_two_models :
  normalize [mkRecord 1 "u1" "lstm" "A" "t" 0 1;
             mkRecord 1 "u1" "svm" "A" "t" 0 1]
  = [mkRecord 1 "u1" "lstm" "A" "t" (1 / 2) 1;
     mkRecord 1 "u1" "svm" "A" "t" 0 1].
Proof.
  rewrite normalize_rows. cbn [map]. unfold normalize_row, is_logit_model.
  cbn [model logit_models existsb String.eqb Ascii.eqb Bool.eqb orb andb].
  unfold set_predictions. cbn [seed user model strategy reading_task
    predictions targets].
  now rewrite nn_Sigmoid_0.
Qed.


Lemma report_pair_without_rows_witness :
  exists before between after latex_before latex_after,
    log (report (fun _ => "0.00"%string) (mkState [] two_models []))
    = [] ++ before
      ++ [header_line "eegnet" "B"; nan_line c_auc; nan_line c_precision;
          nan_line c_recall]
      ++ between
      ++ [mkLog INFO
            (latex_before ++ "& nan (nan) & nan (nan) & nan (nan) "
               ++ latex_after) []]
      ++ after.
Proof.
  apply (report_pair_without_rows (fun _ => "0.00"%string)
           (mkState [] two_models []) (m := "eegnet") (s := "B")).
  - left. reflexivity.
  - right. left. reflexivity.
  - intros row [<-|[<-|[]]] [H1 H2]; discriminate.
Defined.

(* ================================================================== *)
(** * Further properties of the pipeline *)

(** ** What a call of [run] logs *)

Lemma strategy_lines_info t m s :
  Forall (fun rec => levelname rec = INFO) (strategy_lines t m s).
Proof. unfold strategy_lines, report_columns. repeat constructor. Qed.

Lemma report_lines_info fmt t :
  Forall (fun rec => levelname rec = INFO) (report_lines fmt t).
Proof.
  unfold report_lines. apply Forall_flat_map, Forall_forall. intros m _.
  unfold model_lines. apply Forall_app. split.
  - apply Forall_flat_map, Forall_forall. intros s _.
    apply strategy_lines_info.
  - repeat constructor.
Qed.

(** X1. What a call of [run] that returns has added to the log is a
    function of the listed files and their content alone, whatever was
    held or logged before: the single warning when no file is listed,
    otherwise one line per file read, in listing order, followed by the
    report, all at level INFO. *)
Theorem run_adds_log (format_finite : R -> string)
    (read_pickle : string -> DataFrame) (fps : list string) (st st' : State) :
  run format_finite read_pickle fps st = Returned st' ->
  log st' = log st ++ run_log format_finite read_pickle fps
  /\ match fps with
     | [] =>
         run_log format_finite read_pickle fps
         = [mkLog WARNING "No files found. Quitting..." []]
     | _ =>
         Forall (fun rec => levelname rec = INFO)
                (run_log format_finite read_pickle fps)
         /\ firstn (List.length fps) (run_log format_finite read_pickle fps)
            = map reading_line fps
     end.
Proof.
  intros H. split.
  - destruct st as [r t l]. destruct fps as [|fp fps].
    + injection H as <-. reflexivity.
    + rewrite run_spec in H. injection H as <-. reflexivity.
  - destruct fps as [|fp rest]; [reflexivity|]. unfold run_log. split.
    + apply Forall_app. split.
      * apply Forall_forall. intros rec Hrec.
        apply in_map_iff in Hrec as (x & <- & _). reflexivity.
      * apply report_lines_info.
    + rewrite <- (length_map reading_line (fp :: rest)).
      rewrite firstn_app, Nat.sub_diag, firstn_all. cbn [firstn].
      apply app_nil_r.
Qed.

Lemma run_adds_log_witness :
  exists st',
    run (fun _ => "0.00"%string) two_files ["w_relevance_seed1.pkl"%string]
        initial
    = Returned st'
    /\ log st'
       = log initial
         ++ run_log (fun _ => "0.00"%string) two_files
              ["w_relevance_seed1.pkl"%string].
Proof.
  eexists. split.
  - apply run_spec.
  - apply (run_adds_log (fun _ => "0.00"%string) two_files
             ["w_relevance_seed1.pkl"%string] initial).
    apply run_spec.
Defined.

(** ** The normalizer and the groups *)

Lemma key_of_normalize_row (r : PredictionRecord) :
  key_of (normalize_row r) = key_of r.
Proof. unfold normalize_row. now destruct (is_logit_model r). Qed.

Lemma filter_map_commute (A B : Type) (g : A -> B) (f : B -> bool)
    (l : list A) :
  filter f (map g l) = map g (filter (fun a => f (g a)) l).
Proof.
  induction l as [|a l IH]; simpl; [reflexivity|].
  destruct (f (g a)); simpl; now rewrite IH.
Qed.

Lemma group_keys_normalize (df : DataFrame) :
  group_keys (normalize df) = group_keys df.
Proof.
  unfold group_keys. rewrite normalize_rows, map_map. do 2 f_equal.
  apply map_ext. apply key_of_normalize_row.
Qed.

Lemma get_group_normalize (k : GroupKey) (df : DataFrame) :
  get_group k (normalize df) = normalize (get_group k df).
Proof.
  unfold get_group. rewrite !normalize_rows, filter_map_commute. f_equal.
  apply filter_ext. intros r. now rewrite key_of_normalize_row.
Qed.

Lemma compute_metrics_keys (df : DataFrame) :
  map m_key (compute_metrics df) = group_keys df.
Proof.
  rewrite compute_metrics_rows, map_map. cbn [metric_row m_key]. apply map_id.
Qed.

(** X2. The normalizer does not disturb the grouping: the normalized
    table has the group keys of the loaded table, the group of a key in the
    normalized table is the normalized group of the loaded table, and the
    merged table [run] ends with has one row for each key of the table as
    loaded, in the order of the sorted keys. *)
Theorem normalize_keeps_groups (format_finite : R -> string)
    (read_pickle : string -> DataFrame) (fp : string) (fps : list string)
    (st : State) (df : DataFrame) (k : GroupKey) :
  group_keys (normalize df) = group_keys df
  /\ get_group k (normalize df) = normalize (get_group k df)
  /\ exists st',
       run format_finite read_pickle (fp :: fps) st = Returned st'
       /\ map m_key (metrics st') = group_keys (loaded read_pickle (fp :: fps)).
Proof.
  split; [apply group_keys_normalize|]. split; [apply get_group_normalize|].
  destruct st as [r t l]. rewrite run_spec. eexists. split; [reflexivity|].
  cbn [metrics]. now rewrite compute_metrics_keys, group_keys_normalize.
Qed.

(** ** Order of the merged table *)

Lemma sorted_strict (l : list GroupKey) :
  StronglySorted key_le l -> NoDup l -> StronglySorted key_lt l.
Proof.
  induction 1 as [|a l Hs IH Hall]; intros Hnd; constructor.
  - apply IH. now inversion Hnd.
  - inversion Hnd as [|? ? Hnot _]; subst.
    rewrite Forall_forall in *. intros b Hb.
    specialize (Hall b Hb). unfold key_le, key_leb in Hall. unfold key_lt.
    destruct (key_compare a b) eqn:E; try discriminate; [|reflexivity].
    apply key_compare_eq in E. subst. contradiction.
Qed.

(** X3. The rows of the merged table come in strictly ascending order of
    their keys, compared column by column (seed, user, model, strategy,
    reading task), whatever the order of the rows in the loaded table. *)
Theorem metrics_sorted_by_key (df : DataFrame) :
  StronglySorted key_lt (map m_key (compute_metrics df)).
Proof.
  rewrite compute_metrics_keys. apply sorted_strict.
  - apply sort_keys_sorted.
  - apply group_keys_NoDup.
Qed.

(** ** Shape of the report *)

Lemma bare_messages_app (l1 l2 : list LogRecord) :
  bare_messages (l1 ++ l2) = bare_messages l1 ++ bare_messages l2.
Proof. unfold bare_messages. now rewrite filter_app, map_app. Qed.

Lemma bare_messages_strategies t m (ss : list string) :
  bare_messages (flat_map (strategy_lines t m) ss) = [].
Proof.
  induction ss as [|s ss IH]; [reflexivity|].
  cbn [flat_map]. rewrite bare_messages_app, IH. reflexivity.
Qed.

Lemma length_strategies t m (ss : list string) :
  List.length (flat_map (strategy_lines t m) ss) = (4 * List.length ss)%nat.
Proof.
  induction ss as [|s ss IH]; [reflexivity|].
  cbn [flat_map]. rewrite length_app, IH. cbn [List.length strategy_lines
    report_columns map]. lia.
Qed.


(** Where the block of a pair sits in the report. *)
Lemma report_lines_pair fmt (t : list MetricRow) (m s : string) :
  In m (map (fun r => g_model (m_key r)) t) ->
  In s (map (fun r => g_strategy (m_key r)) t) ->
  exists before after,
    report_lines fmt t = before ++ strategy_lines t m s ++ after.
Proof.
  intros Hm Hs.
  apply (unique_In String.eqb String.eqb_eq) in Hm.
  apply (unique_In String.eqb String.eqb_eq), in_rev in Hs.
  apply in_split in Hm as (ms1 & ms2 & Hm).
  apply in_split in Hs as (ss1 & ss2 & Hs).
  unfold report_lines, models_of. fold (models_of t). unfold models_of.
  rewrite Hm, flat_map_app. cbn [flat_map].
  unfold model_lines at 2, strategies_of. rewrite Hs, flat_map_app.
  cbn [flat_map].
  eexists (flat_map _ ms1 ++ flat_map _ ss1), _.
  rewrite <- !app_assoc. reflexivity.
Qed.

Lemma mean_single (v : num) : mean [v] = v.
Proof.
  destruct v as [|x]; [reflexivity|]. unfold mean, Rmean. cbn. f_equal. lra.
Qed.

Lemma std_single (v : num) : std [v] = NaN.
Proof. now destruct v. Qed.

(** X5. A pair of model and strategy with exactly one row in the merged
    table (one seed, user and reading task) is reported with the values of
    that row as means and with NaN as standard deviation of all three
    metrics. *)
Theorem report_single_row (format_finite : R -> string) (st : State)
    (m s : string) (row : MetricRow) :
  select m s (metrics st) = [row] ->
  exists before after,
    log (report format_finite st)
    = log st ++ before
      ++ [header_line m s; single_line row c_auc; single_line row c_precision;
          single_line row c_recall]
      ++ after.
Proof.
  destruct st as [r t l]. cbn [metrics log]. intros Hsel.
  assert (Hrow : In row (select m s t)) by (rewrite Hsel; now left).
  unfold select in Hrow. apply filter_In in Hrow as [Hin Hkeys].
  apply andb_true_iff in Hkeys as [Em Es].
  apply String.eqb_eq in Em, Es.
  destruct (report_lines_pair format_finite t m s) as (before & after & E).
  { rewrite <- Em. apply (in_map (fun r => g_model (m_key r))), Hin. }
  { rewrite <- Es. apply (in_map (fun r => g_strategy (m_key r))), Hin. }
  rewrite report_spec. cbn [log]. rewrite E.
  exists before, after. do 2 f_equal.
  unfold strategy_lines, report_columns, metric_line, column_mean, column_std,
    single_line.
  rewrite Hsel. cbn [map]. now rewrite !mean_single, !std_single.
Qed.

Lemma report_single_row_witness :
  exists before after,
    log (report (fun _ => "0.00"%string) (mkState [] one_seed []))
    = [] ++ before
      ++ [header_line "eegnet" "A";
          single_line (mkMetricRow (mkKey 1 "u1" "eegnet" "A" "t")
                         NaN (Fin 1) NaN NaN NaN) c_auc;
          single_line (mkMetricRow (mkKey 1 "u1" "eegnet" "A" "t")
                         NaN (Fin 1) NaN NaN NaN) c_precision;
          single_line (mkMetricRow (mkKey 1 "u1" "eegnet" "A" "t")
                         NaN (Fin 1) NaN NaN NaN) c_recall]
      ++ after.
Proof.
  apply (report_single_row (fun _ => "0.00"%string) (mkState [] one_seed [])
           "eegnet" "A").
  reflexivity.
Defined.

(** ** Range of the reported statistics *)

Open Scope R_scope.

Lemma dropna_range (lo hi : R) (col : list num) :
  Forall (in_range lo hi) col -> Forall (fun x => lo <= x <= hi) (dropna col).
Proof.
  induction 1 as [|v col Hv _ IH]; simpl; [constructor|].
  destruct v; [assumption|]. now constructor.
Qed.

Lemma Rsum_unit (v : list R) :
  Forall (fun x => 0 <= x <= 1) v -> 0 <= Rsum v <= INR (List.length v).
Proof.
  induction 1 as [|x v Hx _ IH].
  - cbn. lra.
  - cbn [Rsum fold_right List.length]. fold (Rsum v). rewrite S_INR. lra.
Qed.

Lemma Rsum_squares_unit (v : list R) :
  Forall (fun x => 0 <= x <= 1) v ->
  0 <= Rsum (map (fun x => x * x) v) <= Rsum v.
Proof.
  induction 1 as [|x v Hx _ IH].
  - cbn. lra.
  - cbn [map Rsum fold_right]. fold (Rsum v) (Rsum (map (fun x => x * x) v)).
    nra.
Qed.

Lemma squared_deviations (m : R) (v : list R) :
  Rsum (map (fun x => (x - m) * (x - m)) v)
  = Rsum (map (fun x => x * x) v) - 2 * m * Rsum v
    + INR (List.length v) * m * m.
Proof.
  induction v as [|x v IH].
  - cbn. ring.
  - cbn [map Rsum fold_right List.length].
    fold (Rsum v) (Rsum (map (fun x => x * x) v))
         (Rsum (map (fun x => (x - m) * (x - m)) v)).
    rewrite IH, S_INR. ring.
Qed.

Lemma Rmean_unit (v : list R) :
  v <> [] -> Forall (fun x => 0 <= x <= 1) v -> 0 <= Rmean v <= 1.
Proof.
  intros Hne Hv. pose proof (Rsum_unit Hv) as Hs. unfold Rmean.
  assert (Hn : 0 < INR (List.length v)).
  { apply lt_0_INR. destruct v; [contradiction|cbn; lia]. }
  split.
  - apply Rmult_le_reg_r with (INR (List.length v)); [assumption|].
    unfold Rdiv. rewrite Rmult_assoc, Rinv_l; lra.
  - apply Rmult_le_reg_r with (INR (List.length v)); [assumption|].
    unfold Rdiv. rewrite Rmult_assoc, Rinv_l; lra.
Qed.

Lemma mean_unit (col : list num) :
  Forall (in_range 0 1) col -> in_range 0 1 (mean col).
Proof.
  intros H%dropna_range. unfold mean.
  destruct (dropna col) as [|x v] eqn:E; [constructor|].
  cbn [in_range]. apply Rmean_unit; [discriminate|assumption].
Qed.

Lemma Rsum_squares_nonneg (A : Type) (f : A -> R) (l : list A) :
  0 <= Rsum (map (fun x => f x * f x) l).
Proof.
  induction l as [|x l IH].
  - cbn. lra.
  - cbn [map Rsum fold_right]. fold (Rsum (map (fun x => f x * f x) l)). nra.
Qed.

Lemma sample_variance_unit (v : list R) :
  (2 <= List.length v)%nat -> Forall (fun x => 0 <= x <= 1) v ->
  0 <= Rsum (map (fun x => (x - Rmean v) * (x - Rmean v)) v)
       / INR (List.length v - 1) <= 1.
Proof.
  intros Hlen Hv.
  pose proof (Rsum_unit Hv) as Hs. pose proof (Rsum_squares_unit Hv) as Hq.
  assert (Hmu : 0 <= Rmean v <= 1).
  { apply Rmean_unit; [|assumption]. destruct v; [cbn in Hlen; lia|discriminate]. }
  assert (Hn : 2 <= INR (List.length v)).
  { change 2 with (INR 2). now apply le_INR. }
  assert (Hprod : Rmean v * INR (List.length v) = Rsum v).
  { unfold Rmean, Rdiv. rewrite Rmult_assoc, Rinv_l; lra. }
  pose proof (Rsum_squares_nonneg (fun x => x - Rmean v) v) as Hd0.
  cbn beta in Hd0.
  rewrite minus_INR by lia. cbn [INR].
  rewrite squared_deviations in *.
  set (n := INR (List.length v)) in *. set (mu := Rmean v) in *.
  set (S := Rsum v) in *. set (Q := Rsum (map (fun x => x * x) v)) in *.
  clearbody n mu S Q.
  assert (Hd : 0 < n - 1) by lra.
  assert (Hup : Q - 2 * mu * S + n * mu * mu <= n - 1).
  { subst S. pose proof (Rle_0_sqr (mu - 1 / 2)) as Hsq. unfold Rsqr in Hsq.
    assert (Hm : mu * (1 - mu) <= 1 / 4) by lra.
    assert (Hb : n * (mu * (1 - mu)) <= n * (1 / 4))
      by (apply Rmult_le_compat_l; lra).
    lra. }
  split.
  - apply Rmult_le_reg_r with (n - 1); [assumption|].
    unfold Rdiv. rewrite Rmult_assoc, Rinv_l; lra.
  - apply Rmult_le_reg_r with (n - 1); [assumption|].
    unfold Rdiv. rewrite Rmult_assoc, Rinv_l; lra.
Qed.

Lemma std_unit (col : list num) :
  Forall (in_range 0 1) col -> in_range 0 1 (std col).
Proof.
  intros H%dropna_range. unfold std.
  destruct (dropna col) as [|a [|b w]] eqn:E; try constructor.
  - apply sqrt_pos.
  - rewrite <- sqrt_1. apply sqrt_le_1_alt.
    apply sample_variance_unit; [cbn; lia|assumption].
Qed.

Close Scope R_scope.

Lemma reported_columns_unit (df : DataFrame) (c : Column) :
  In c report_columns ->
  Forall (in_range 0 1) (map (column c) (compute_metrics df)).
Proof.
  intros Hc. rewrite compute_metrics_rows, map_map. apply Forall_forall.
  intros v Hv. apply in_map_iff in Hv as (k & <- & _).
  unfold metric_row, on_group.
  destruct Hc as [<-|[<-|[<-|[]]]]; cbn [column auc precision recall].
  - apply auroc_range.
  - apply precision_range.
  - apply recall_range.
Qed.

Lemma select_column_unit (t : list MetricRow) (m s : string) (c : Column) :
  Forall (in_range 0 1) (map (column c) t) ->
  Forall (in_range 0 1) (map (column c) (select m s t)).
Proof.
  rewrite !Forall_forall. intros H v Hv.
  apply in_map_iff in Hv as (row & <- & Hrow).
  apply filter_In in Hrow as [Hrow _].
  apply H. now apply in_map.
Qed.

(** X6. Whatever the loaded table, the mean and the standard deviation
    the Reporter logs for auc, precision and recall of a pair of model and
    strategy are numbers between 0 and 1, or NaN. *)
Theorem reported_statistics_range (df : DataFrame) (m s : string) :
  Forall
    (fun c =>
       in_range 0 1 (mean (map (column c) (select m s (compute_metrics df))))
       /\ in_range 0 1 (std (map (column c) (select m s (compute_metrics df)))))
    report_columns.
Proof.
  apply Forall_forall. intros c Hc.
  pose proof (select_column_unit _ m s c (reported_columns_unit df Hc)) as H.
  split; [now apply mean_unit|now apply std_unit].
Qed.

(** ** The normalizer and the threshold *)

Lemma Sigmoid_le_half (y : R) : (y <= 0)%R -> (Sigmoid y <= 1 / 2)%R.
Proof.
  intros H. unfold Sigmoid.
  assert (E : (1 <= exp (- y))%R).
  { rewrite <- exp_0. destruct H as [H|H].
    - left. apply exp_increasing. lra.
    - subst. rewrite Ropp_0. lra. }
  apply Rmult_le_reg_r with (1 + exp (- y))%R; [lra|].
  unfold Rdiv. rewrite Rmult_assoc, Rinv_l; lra.
Qed.

(** X7. A row of a logit model whose raw logit is not positive is never a
    positive prediction for the metrics: after the normalizer its score,
    as a float32, does not exceed the threshold 0.5. *)
Theorem nonpositive_logit_not_positive (df : DataFrame) :
  Forall2
    (fun r r' =>
       In (model r) logit_models -> (predictions r <= 0)%R ->
       above_threshold (float32 (predictions r')) = false)
    df (normalize df).
Proof.
  rewrite normalize_rows. apply Forall2_map_same. intros r _ Hm Hp.
  unfold normalize_row. apply is_logit_model_In in Hm. rewrite Hm.
  cbn [set_predictions predictions]. unfold nn_Sigmoid, FloatTensor.
  apply above_threshold_false.
  do 2 apply float32_le_half. apply Sigmoid_le_half.
  now apply float32_nonpos.
Qed.

(** ** The script *)

Lemma run_returns fmt read_pickle (fps : list string) r t l :
  exists r' t',
    run fmt read_pickle fps (mkState r t l)
    = Returned (mkState r' t' (l ++ run_log fmt read_pickle fps)).
Proof.
  destruct fps as [|fp fps].
  - do 2 eexists. reflexivity.
  - rewrite run_spec. do 2 eexists. reflexivity.
Qed.

Lemma main_returns (format_finite : R -> string) (args_repr : string)
    (listing : string -> list string) (read_pickle : string -> DataFrame)
    (st : State) :
  exists st',
    main format_finite args_repr listing read_pickle st = Returned st'
    /\ log st'
       = log st
         ++ [mkLog INFO "Args: %s" [AStr args_repr];
             mkLog INFO "Generating results for word relevance..." []]
         ++ run_log format_finite read_pickle
              (listing "w_relevance_seed*.pkl"%string)
         ++ [mkLog INFO "Generating results for sentence relevance..." []]
         ++ run_log format_finite read_pickle
              (listing "s_relevance_seed*.pkl"%string).
Proof.
  destruct st as [r t l]. unfold main, logging. cbn [results metrics log].
  destruct (run_returns format_finite read_pickle
              (listing "w_relevance_seed*.pkl"%string) r t
              ((l ++ [mkLog INFO "Args: %s" [AStr args_repr]])
                 ++ [mkLog INFO "Generating results for word relevance..." []]))
    as (r1 & t1 & E1).
  rewrite E1. cbn [leave results metrics log].
  match goal with
  | |- context [run _ _ _ (mkState ?a ?b ?c)] =>
      destruct (run_returns format_finite read_pickle
                  (listing "s_relevance_seed*.pkl"%string) a b c)
        as (r2 & t2 & E2)
  end.
  rewrite E2. cbn [leave log]. eexists. split; [reflexivity|].
  cbn [log]. rewrite <- !app_assoc. reflexivity.
Qed.

(** X10. When the script completes, its log is the line with the
    arguments, the heading of the first pass, what [run] logs on the word
    files, the heading of the second pass and what [run] logs on the
    sentence files: the second pass is logged as it would be on its own,
    also when the first found no files and only warned. *)
Theorem main_log (format_finite : R -> string) (args_repr : string)
    (listing : string -> list string) (read_pickle : string -> DataFrame)
    (st st' : State) :
  main format_finite args_repr listing read_pickle st = Returned st' ->
  log st'
  = log st
    ++ [mkLog INFO "Args: %s" [AStr args_repr];
        mkLog INFO "Generating results for word relevance..." []]
    ++ run_log format_finite read_pickle
         (listing "w_relevance_seed*.pkl"%string)
    ++ [mkLog INFO "Generating results for sentence relevance..." []]
    ++ run_log format_finite read_pickle
         (listing "s_relevance_seed*.pkl"%string).
Proof.
  intros H.
  destruct (main_returns format_finite args_repr listing read_pickle st)
    as (st0 & E & L).
  rewrite E in H. injection H as <-. exact L.
Qed.

(** No word files, one sentence file. *)
Lemma main_log_witness :
  exists st',
    main (fun _ => "0.00"%string) "Namespace()" sentence_only two_files initial
    = Returned st'
    /\ log st'
       = log initial
         ++ [mkLog INFO "Args: %s" [AStr "Namespace()"];
             mkLog INFO "Generating results for word relevance..." []]
         ++ run_log (fun _ => "0.00"%string) two_files
              (sentence_only "w_relevance_seed*.pkl"%string)
         ++ [mkLog INFO "Generating results for sentence relevance..." []]
         ++ run_log (fun _ => "0.00"%string) two_files
              (sentence_only "s_relevance_seed*.pkl"%string).
Proof.
  destruct (main_returns (fun _ => "0.00"%string) "Namespace()" sentence_only
              two_files initial) as (st' & E & _).
  exists st'. split; [exact E|].
  apply (main_log (fun _ => "0.00"%string) "Namespace()" sentence_only
           two_files initial E).
Defined.

(** ** What reaches the report *)

(** X11. The models and the strategies the Reporter runs through are those
    of the loaded table, each once and no other: a model or a strategy is
    reported exactly when some loaded row carries it. *)
Theorem reported_models_and_strategies (df : DataFrame) (m s : string) :
  let t := compute_metrics (normalize df) in
  (In m (models_of t) <-> exists r, In r df /\ model r = m)
  /\ (In s (strategies_of t) <-> exists r, In r df /\ strategy r = s)
  /\ NoDup (models_of t) /\ NoDup (strategies_of t).
Proof.
  intros t.
  assert (K : forall (proj : GroupKey -> string) (v : string),
             In v (map (fun row => proj (m_key row)) t)
             <-> exists r, In r df /\ proj (key_of r) = v).
  { intros proj v. unfold t.
    rewrite <- (map_map m_key proj), compute_metrics_keys, group_keys_normalize.
    rewrite in_map_iff. split.
    - intros (k & <- & Hk). apply group_keys_In in Hk as (r & Hr & <-). eauto.
    - intros (r & Hr & <-). exists (key_of r). split; [reflexivity|].
      apply group_keys_In. eauto. }
  split; [|split; [|split]].
  - unfold models_of. rewrite (unique_In String.eqb String.eqb_eq).
    apply (K g_model).
  - unfold strategies_of. rewrite (unique_In String.eqb String.eqb_eq).
    apply (K g_strategy).
  - apply unique_NoDup, String.eqb_eq.
  - apply unique_NoDup, String.eqb_eq.
Qed.

(** X12. The report does not depend on the order of the rows of the loaded
    table: two tables with the same rows in any order give the same merged
    table and the same report records. *)
Theorem report_ignores_row_order (format_finite : R -> string)
    (df df' : DataFrame) :
  Permutation df df' ->
  compute_metrics (normalize df) = compute_metrics (normalize df')
  /\ report_lines format_finite (compute_metrics (normalize df))
     = report_lines format_finite (compute_metrics (normalize df')).
Proof.
  intros P.
  pose proof (compute_metrics_perm (normalize_perm P)) as E.
  split; [exact E|now rewrite E].
Qed.

Lemma report_ignores_row_order_witness :
  compute_metrics (normalize two_rows) = compute_metrics (normalize (rev two_rows))
  /\ report_lines (fun _ => "0.00"%string) (compute_metrics (normalize two_rows))
     = report_lines (fun _ => "0.00"%string)
         (compute_metrics (normalize (rev two_rows))).
Proof.
  apply (report_ignores_row_order (fun _ => "0.00"%string)
           (df := two_rows) (df' := rev two_rows)).
  apply Permutation_rev.
Defined.

(** X13. The normalizer changes the metrics of logit models only: the
    merged row of a group whose model is outside the logit models is, in
    all five metrics, the row computed on the table as loaded. *)
Theorem other_models_metrics_unchanged (df : DataFrame) (k : GroupKey) :
  ~ In (g_model k) logit_models ->
  metric_row (normalize df) k = metric_row df k.
Proof.
  intros Hk. unfold metric_row. rewrite get_group_normalize.
  assert (E : normalize (get_group k df) = get_group k df).
  { rewrite normalize_rows. rewrite <- (map_id (get_group k df)) at 2.
    apply map_ext_in. intros r Hr. unfold normalize_row.
    destruct (is_logit_model r) eqn:L; [|reflexivity].
    apply is_logit_model_In in L. apply get_group_In in Hr as [_ <-].
    contradiction. }
  now rewrite E.
Qed.

Lemma other_models_metrics_unchanged_witness :
  metric_row (normalize svm_rows) (mkKey 1 "u1" "svm" "A" "t")
  = metric_row svm_rows (mkKey 1 "u1" "svm" "A" "t").
Proof.
  apply (other_models_metrics_unchanged svm_rows (mkKey 1 "u1" "svm" "A" "t")).
  cbn. intros [H|[H|[H|[]]]]; discriminate.
Defined.

(** ** The LaTeX line and the lines above it *)

Lemma fragments_of_strategies fmt t m (ss : list string) :
  join (map (fragment_of fmt) (flat_map (strategy_lines t m) ss))
  = join (map (strategy_latex fmt t m) ss).
Proof.
  assert (E : forall s, join (map (fragment_of fmt) (strategy_lines t m s))
                        = strategy_latex fmt t m s) by reflexivity.
  induction ss as [|s ss IH]; [reflexivity|].
  cbn [flat_map map]. rewrite map_app, join_app, IH, E. reflexivity.
Qed.


(** ** The order in which the files are listed *)

(** X15. The order in which [glob] lists the files matters for the lines
    that name the files read and for nothing else: two calls of [run] on
    two listings of the same files that both return leave the same merged
    metrics table and log the same report records, the LaTeX lines
    included. *)
Theorem run_ignores_listing_order (format_finite : R -> string)
    (read_pickle : string -> DataFrame) (fps1 fps2 : list string)
    (st st1 st2 : State) :
  Permutation fps1 fps2 ->
  run format_finite read_pickle fps1 st = Returned st1 ->
  run format_finite read_pickle fps2 st = Returned st2 ->
  metrics st1 = metrics st2
  /\ exists report_records,
       log st1 = log st ++ map reading_line fps1 ++ report_records
       /\ log st2 = log st ++ map reading_line fps2 ++ report_records.
Proof.
  intros P H1 H2. destruct st as [r t l].
  destruct fps1 as [|fp1 fps1].
  - apply Permutation_nil in P. subst fps2.
    injection H1 as <-. injection H2 as <-.
    split; [reflexivity|]. eexists. split; reflexivity.
  - destruct fps2 as [|fp2 fps2];
      [apply Permutation_sym, Permutation_nil in P; discriminate|].
    rewrite run_spec in H1, H2. injection H1 as <-. injection H2 as <-.
    pose proof (compute_metrics_perm (normalize_perm (loaded_perm read_pickle P)))
      as E.
    cbn [metrics log]. split; [exact E|].
    eexists. split; [reflexivity|]. now rewrite E.
Qed.

Lemma run_ignores_listing_order_witness :
  exists st1 st2,
    run (fun _ => "0.00"%string) two_files
        ["w_relevance_seed1.pkl"; "w_relevance_seed2.pkl"]%string initial
    = Returned st1
    /\ run (fun _ => "0.00"%string) two_files
           ["w_relevance_seed2.pkl"; "w_relevance_seed1.pkl"]%string initial
       = Returned st2
    /\ metrics st1 = metrics st2
    /\ metrics st1 <> [].
Proof.
  do 2 eexists. split; [apply run_spec|]. split; [apply run_spec|].
  split.
  - apply (@run_ignores_listing_order (fun _ => "0.00"%string) two_files
             ["w_relevance_seed1.pkl"; "w_relevance_seed2.pkl"]%string
             ["w_relevance_seed2.pkl"; "w_relevance_seed1.pkl"]%string
             initial).
    + apply perm_swap.
    + apply run_spec.
    + apply run_spec.
  - cbn [metrics]. rewrite compute_metrics_rows.
    intros E. apply map_eq_nil in E.
    assert (H : In (mkKey 1 "u1" "eegnet" "A" "t")
                  (group_keys
                     (normalize
                        (loaded two_files
                           ["w_relevance_seed1.pkl"; "w_relevance_seed2.pkl"]%string)))).
    { rewrite group_keys_normalize. apply group_keys_In.
      eexists. split; [left; reflexivity|reflexivity]. }
    rewrite E in H. exact H.
Defined.
